(** * Traffic light: message queue and phase controller

    A shallow embedding of [src/TrafficLight.cpp].

    The queue [MessageQueue<T>] is modelled as a record holding the container
    [_messages], the owner of [_mutex] and the threads parked on [_condition].
    Every method is the sequence of primitive steps its body performs, one per
    source line; a step function [exec] gives a primitive its effect on the
    queue for the thread that executes it.  A method can then be run by one
    thread up to the point where it returns or is suspended ([run]), or
    interleaved with the steps of other threads ([sched]).

    The header [TrafficLight.h] is not part of the sources.  The container is
    used through [empty], [back], [pop_back], [push_back] and [clear] only, so
    a list with the back of the container at its end models it; the phase type
    is used through its two enumerators [red] and [green]. *)

From Stdlib Require Import ZArith Lia.
From stdpp Require Import base option list gmap.

Set Default Proof Using "Type".

(** Thread identifiers. *)
Abbreviation tid := nat.

(** [enum TrafficLightPhase { red, green }]. *)
Inductive TrafficLightPhase := red | green.

Definition phase_eqb (a b : TrafficLightPhase) : bool :=
  match a, b with
  | red, red | green, green => true
  | _, _ => false
  end.

(** ** The message queue *)

Module MessageQueue.

Section Queue.
Variable T : Type.

(** The three data members of [MessageQueue<T>]. *)
Record t := mk {
  _messages : list T;      (* the container; [back()] is the last element *)
  _mutex : option tid;     (* [std::mutex]: the thread that owns it, if any *)
  _condition : list tid    (* [std::condition_variable]: threads parked in [wait] *)
}.

Definition set_messages (l : list T) (q : t) : t :=
  mk l (_mutex q) (_condition q).
Definition set_mutex (o : option tid) (q : t) : t :=
  mk (_messages q) o (_condition q).
Definition set_condition (w : list tid) (q : t) : t :=
  mk (_messages q) (_mutex q) w.

(** The primitive steps of the three method bodies, and the pause that
    the loops of the controller make between two rounds. *)
Inductive instr :=
| unique_lock            (* [std::unique_lock] / [std::lock_guard] constructor *)
| cv_wait                (* [_condition.wait(ulock, [this]{ return !_messages.empty(); })] *)
| cv_reacquire           (* inside [wait]: the woken thread locks the mutex again *)
| move_back              (* [T msg = std::move(_messages.back())] *)
| pop_back               (* [_messages.pop_back()] *)
| push_back (v : T)      (* [_messages.push_back(std::move(msg))] *)
| notify_one             (* [_condition.notify_one()] *)
| release                (* end of scope: the lock object unlocks the mutex *)
| clear_all              (* [_messages.clear()] *)
| sleep_for (ms : Z).    (* [std::this_thread::sleep_for(std::chrono::milliseconds(ms))] *)

(** What one primitive step does. *)
Inductive step_result :=
| Done (q : t) (msg : option T)   (* the step completed *)
| Park (q : t)                    (* [wait] found the predicate false: mutex released, thread parked *)
| NotReady                        (* the thread cannot take the step now *)
| Undefined.                      (* undefined behaviour in C++ *)

Definition acquire (me : tid) (q : t) (msg : option T) : step_result :=
  match _mutex q with
  | None => Done (set_mutex (Some me) q) msg
  | Some owner => if decide (owner = me) then Undefined else NotReady
  end.

(** [exec pick me i msg q]: thread [me], whose local [msg] holds [msg],
    executes [i] on [q].  [pick] is the implementation's choice of the
    waiter that [notify_one] wakes. *)
Definition exec (pick : nat) (me : tid) (i : instr) (msg : option T) (q : t)
  : step_result :=
  match i with
  | unique_lock => acquire me q msg
  | cv_wait =>
      if decide (_mutex q = Some me) then
        match _messages q with
        | [] => Park (set_condition (_condition q ++ [me]) (set_mutex None q))
        | _ :: _ => Done q msg
        end
      else Undefined
  | cv_reacquire =>
      if decide (me ∈ _condition q) then NotReady else acquire me q msg
  | move_back =>
      match last (_messages q) with
      | Some x => Done q (Some x)
      | None => Undefined
      end
  | pop_back =>
      match _messages q with
      | [] => Undefined
      | _ :: _ => Done (set_messages (removelast (_messages q)) q) msg
      end
  | push_back v => Done (set_messages (_messages q ++ [v]) q) msg
  | notify_one =>
      Done (set_condition
              (delete (pick `mod` length (_condition q)) (_condition q)) q) msg
  | release =>
      if decide (_mutex q = Some me) then Done (set_mutex None q) msg
      else Undefined
  | clear_all => Done (set_messages [] q) msg
  | sleep_for _ => Done q msg
  end.

(** The thread that [notify_one] wakes, if any thread is parked. *)
Definition woken (pick : nat) (q : t) : option tid :=
  _condition q !! (pick `mod` length (_condition q)).

(** A wake-up that no [notify_one] caused (the standard allows them). *)
Definition spurious_wakeup (me : tid) (q : t) : t :=
  set_condition (filter (λ w, w ≠ me) (_condition q)) q.

(** [T MessageQueue<T>::receive()], lines 8-22. *)
Definition receive : list instr :=
  [unique_lock; cv_wait; move_back; pop_back; release].

(** What a thread parked inside the [wait] of [receive] still has to do. *)
Definition waiting : list instr :=
  [cv_reacquire; cv_wait; move_back; pop_back; release].

(** [void MessageQueue<T>::send(T&& msg)], lines 25-36. *)
Definition send (msg : T) : list instr :=
  [unique_lock; push_back msg; notify_one; release].

(** [void MessageQueue<T>::clear()], lines 39-43. *)
Definition clear : list instr :=
  [clear_all].

(** Where a call stands when the calling thread stops running. *)
Inductive outcome :=
| Returned (msg : option T) (q : t)
| Suspended (rest : list instr) (msg : option T) (q : t)
| Fault.

(** One thread runs its code until it returns or cannot continue. *)
Fixpoint run (pick : nat) (me : tid) (code : list instr) (msg : option T)
    (q : t) : outcome :=
  match code with
  | [] => Returned msg q
  | i :: rest =>
      match exec pick me i msg q with
      | Done q' msg' => run pick me rest msg' q'
      | Park q' => Suspended (cv_reacquire :: i :: rest) msg q'
      | NotReady => Suspended code msg q
      | Undefined => Fault
      end
  end.

(** A freshly constructed queue. *)
Definition empty : t := mk [] None [].

(** A thread calls [receive] [n] times in a row; the values that the calls
    return, in the order of the calls, when every one of them returns. *)
Fixpoint drain (pick : nat) (me : tid) (n : nat) (q : t)
    : option (list T * t) :=
  match n with
  | 0 => Some ([], q)
  | S n' =>
      match run pick me receive None q with
      | Returned (Some x) q' =>
          match drain pick me n' q' with
          | Some (xs, q'') => Some (x :: xs, q'')
          | None => None
          end
      | _ => None
      end
  end.
End Queue.

Arguments mk {T}.
Arguments _messages {T}.
Arguments _mutex {T}.
Arguments _condition {T}.
Arguments set_messages {T}.
Arguments set_mutex {T}.
Arguments set_condition {T}.
Arguments unique_lock {T}.
Arguments cv_wait {T}.
Arguments cv_reacquire {T}.
Arguments move_back {T}.
Arguments pop_back {T}.
Arguments push_back {T}.
Arguments notify_one {T}.
Arguments release {T}.
Arguments clear_all {T}.
Arguments sleep_for {T}.
Arguments Done {T}.
Arguments Park {T}.
Arguments NotReady {T}.
Arguments Undefined {T}.
Arguments acquire {T}.
Arguments exec {T}.
Arguments woken {T}.
Arguments spurious_wakeup {T}.
Arguments receive {T}.
Arguments waiting {T}.
Arguments send {T}.
Arguments clear {T}.
Arguments Returned {T}.
Arguments Suspended {T}.
Arguments Fault {T}.
Arguments run {T}.
Arguments empty {T}.
Arguments drain {T}.

End MessageQueue.

(** ** Threads interleaved on one queue *)

Module System.

Section System.
Variable T : Type.

(** A thread runs straight-line [code]; a thread with a [loop] starts the
    loop body again when its code is used up, unless the value it received
    last satisfies the exit test.  [received] is a ghost record of the values
    the thread has tested so far. *)
Record thread := mkThread {
  code : list (MessageQueue.instr T);
  msg : option T;
  loop : option (list (MessageQueue.instr T) * (T → bool));
  received : list T
}.

(** Ghost record of one executed step: who ran what, and who owned the
    mutex at that moment. *)
Record entry := mkEntry {
  who : tid;
  what : MessageQueue.instr T;
  owner : option tid
}.

Record t := mk {
  queue : MessageQueue.t T;
  pool : gmap tid thread;
  log : list entry
}.

(** What the scheduler can do next. *)
Inductive action :=
| Step (me : tid) (pick : nat)    (* thread [me] takes its next step *)
| Wake (me : tid).                (* thread [me] wakes up without a notification *)

Definition step (a : action) (s : t) : option t :=
  match a with
  | Wake me => Some (mk (MessageQueue.spurious_wakeup me (queue s)) (pool s) (log s))
  | Step me pick =>
      th ← pool s !! me;
      match code th with
      | i :: rest =>
          let e := mkEntry me i (MessageQueue._mutex (queue s)) in
          match MessageQueue.exec pick me i (msg th) (queue s) with
          | MessageQueue.Done q' m' =>
              Some (mk q' (<[me := mkThread rest m' (loop th) (received th)]> (pool s))
                       (log s ++ [e]))
          | MessageQueue.Park q' =>
              Some (mk q'
                       (<[me := mkThread (MessageQueue.cv_reacquire :: i :: rest)
                                         (msg th) (loop th) (received th)]> (pool s))
                       (log s ++ [e]))
          | MessageQueue.NotReady | MessageQueue.Undefined => None
          end
      | [] =>
          match loop th, msg th with
          | Some (body, stop), Some v =>
              let th' :=
                if stop v then mkThread [] (Some v) None (received th ++ [v])
                else mkThread body None (loop th) (received th ++ [v]) in
              Some (mk (queue s) (<[me := th']> (pool s)) (log s))
          | _, _ => None
          end
      end
  end.

Fixpoint sched (acts : list action) (s : t) : option t :=
  match acts with
  | [] => Some s
  | a :: rest => s' ← step a s; sched rest s'
  end.

(** A thread that runs one call, or several calls one after the other. *)
Definition call (c : list (MessageQueue.instr T)) : thread :=
  mkThread c None None [].

(** A thread that has run to its end. *)
Definition finished (th : thread) : Prop :=
  code th = [] ∧ loop th = None.

(** Steps that read or write the container. *)
Definition touches (i : MessageQueue.instr T) : bool :=
  match i with
  | MessageQueue.cv_wait | MessageQueue.move_back | MessageQueue.pop_back
  | MessageQueue.push_back _ | MessageQueue.clear_all => true
  | _ => false
  end.

(** A step on the container made by its thread while it owned the mutex. *)
Definition locked (e : entry) : Prop :=
  touches (what e) = true → owner e = Some (who e).

(** [guarded held c]: in [c], run by a thread that owns the mutex iff
    [held], every step on the container lies between a lock and its
    release. *)
Fixpoint guarded (held : bool) (c : list (MessageQueue.instr T)) : bool :=
  match c with
  | [] => negb held
  | MessageQueue.unique_lock :: c' => negb held && guarded true c'
  | MessageQueue.cv_reacquire :: c' => negb held && guarded true c'
  | MessageQueue.release :: c' => held && guarded false c'
  | (MessageQueue.notify_one | MessageQueue.sleep_for _) :: c' => guarded held c'
  | _ :: c' => held && guarded held c'
  end.

Definition is_pop (i : MessageQueue.instr T) : bool :=
  match i with MessageQueue.pop_back => true | _ => false end.
Definition is_push (i : MessageQueue.instr T) : bool :=
  match i with MessageQueue.push_back _ => true | _ => false end.

(** How many elements the steps of a log have removed with [pop_back], and
    added with [push_back]. *)
Definition pops (l : list entry) : nat :=
  length (filter (λ e, is_pop (what e) = true) l).
Definition pushes (l : list entry) : nat :=
  length (filter (λ e, is_push (what e) = true) l).

(** What a step hands to thread [me] out of the container: the element at
    the back, when the step is the [move_back] of [me] (line 19, the value
    that its call of [receive] returns). *)
Definition moves (me : tid) (a : action) (s : t) : list T :=
  match a with
  | Step who _ =>
      if decide (who = me) then
        match pool s !! me with
        | Some th =>
            match code th with
            | MessageQueue.move_back :: _ =>
                option_list (last (MessageQueue._messages (queue s)))
            | _ => []
            end
        | None => []
        end
      else []
  | Wake _ => []
  end.

(** The values that the calls of [receive] of thread [me] have taken from
    the queue in the course of a schedule, in this order. *)
Fixpoint moved (me : tid) (acts : list action) (s : t) : list T :=
  match acts with
  | [] => []
  | a :: rest =>
      moves me a s
      ++ match step a s with
         | Some s' => moved me rest s'
         | None => []
         end
  end.

(** The value that a thread in a loop has taken from the queue and not yet
    tested. *)
Definition pending (th : thread) : list T :=
  match loop th, msg th with
  | Some _, Some x => [x]
  | _, _ => []
  end.

(** The values that the steps of a log have put in with [push_back]. *)
Definition pushed (l : list entry) : list T :=
  omap (λ e, match what e with
             | MessageQueue.push_back v => Some v
             | _ => None
             end) l.

(** Every value that is stored, that a thread holds in [msg], or that a
    thread has tested, is one of [init] or has been pushed. *)
Definition traced (init : list T) (s : t) : Prop :=
  (∀ x, x ∈ MessageQueue._messages (queue s) → x ∈ init ∨ x ∈ pushed (log s))
  ∧ ∀ me th v, pool s !! me = Some th →
      msg th = Some v ∨ v ∈ received th → v ∈ init ∨ v ∈ pushed (log s).

(** The elements stored and those taken out are covered by those put in,
    [n0] of them before the log was started. *)
Definition balanced (n0 : nat) (s : t) : Prop :=
  length (MessageQueue._messages (queue s)) + pops (log s)
  ≤ n0 + pushes (log s).

(** Every thread of the pool keeps its steps on the container between a
    lock and its release, and owns the mutex exactly there. *)
Definition disciplined (s : t) : Prop :=
  ∀ me th, pool s !! me = Some th →
    (∃ held, guarded held (code th) = true ∧
             (held = true ↔ MessageQueue._mutex (queue s) = Some me)) ∧
    (∀ body stop, loop th = Some (body, stop) → guarded false body = true).
End System.

Arguments mkThread {T}.
Arguments code {T}.
Arguments msg {T}.
Arguments loop {T}.
Arguments received {T}.
Arguments mkEntry {T}.
Arguments who {T}.
Arguments what {T}.
Arguments owner {T}.
Arguments mk {T}.
Arguments queue {T}.
Arguments pool {T}.
Arguments log {T}.
Arguments step {T}.
Arguments sched {T}.
Arguments call {T}.
Arguments finished {T}.
Arguments touches {T}.
Arguments locked {T}.
Arguments guarded {T}.
Arguments is_pop {T}.
Arguments is_push {T}.
Arguments pops {T}.
Arguments pushes {T}.
Arguments balanced {T}.
Arguments pushed {T}.
Arguments moves {T}.
Arguments moved {T}.
Arguments pending {T}.
Arguments traced {T}.
Arguments disciplined {T}.

End System.

(** ** The phase controller *)

Module TrafficLight.

(** The data members of [TrafficLight] that the source file uses.  [_id] is
    inherited from the base class, which assigns it. *)
Record t := mk {
  _currentPhase : TrafficLightPhase;
  _msgQueue : MessageQueue.t TrafficLightPhase;
  _id : nat
}.

(** [TrafficLight::TrafficLight()], lines 47-51. *)
Definition TrafficLight (id : nat) : t :=
  mk red MessageQueue.empty id.

(** [void TrafficLight::waitForGreen()], lines 53-68: the calling thread
    repeats [sleep_for(1ms); currPhase = _msgQueue->receive()] and leaves the
    loop when [currPhase == TrafficLightPhase::green]. *)
Definition waitForGreen_round : list (MessageQueue.instr TrafficLightPhase) :=
  MessageQueue.sleep_for 1 :: MessageQueue.receive.

Definition waitForGreen : System.thread TrafficLightPhase :=
  System.mkThread waitForGreen_round None
    (Some (waitForGreen_round, λ currPhase, phase_eqb currPhase green)) [].

(** What holds of a thread that runs [waitForGreen]: it is in the loop and
    every value it has tested was red, or it has left the loop and the last
    value it tested, and no other, was green. *)
Definition waits_for_green (th : System.thread TrafficLightPhase) : Prop :=
  ∃ n,
    (System.loop th = System.loop waitForGreen ∧
     System.received th = replicate n red)
    ∨ (System.finished th ∧ System.received th = replicate n red ++ [green]).

(** Where a thread in [waitForGreen] stands before the [move_back] of the
    call of [receive] of the current round, and after it. *)
Definition before_move (c : list (MessageQueue.instr TrafficLightPhase))
    : Prop :=
  c = waitForGreen_round
  ∨ c = MessageQueue.receive
  ∨ c = [MessageQueue.cv_wait; MessageQueue.move_back; MessageQueue.pop_back;
         MessageQueue.release]
  ∨ c = [MessageQueue.move_back; MessageQueue.pop_back; MessageQueue.release]
  ∨ c = MessageQueue.waiting.

Definition after_move (c : list (MessageQueue.instr TrafficLightPhase))
    : Prop :=
  c = [MessageQueue.pop_back; MessageQueue.release]
  ∨ c = [MessageQueue.release]
  ∨ c = [].

(** [follows taken th]: [th] is a thread in [waitForGreen] whose calls of
    [receive] have taken the values [taken] from the queue.  It is in a
    round before the [move_back], all the values taken were red and have
    been tested; or it has just taken a value, which it still has to pop
    and to test; or it has left the loop, and the last value taken, and no
    other, was green. *)
Definition follows (taken : list TrafficLightPhase)
    (th : System.thread TrafficLightPhase) : Prop :=
  ∃ n,
    (System.loop th = System.loop waitForGreen ∧ System.msg th = None
     ∧ before_move (System.code th)
     ∧ System.received th = replicate n red ∧ taken = System.received th)
    ∨ (∃ x, System.loop th = System.loop waitForGreen
            ∧ System.msg th = Some x ∧ after_move (System.code th)
            ∧ System.received th = replicate n red
            ∧ taken = System.received th ++ [x])
    ∨ (System.finished th
       ∧ System.received th = replicate n red ++ [green]
       ∧ taken = System.received th).

(** [TrafficLightPhase TrafficLight::getCurrentPhase()], lines 70-73: the
    value returned, and the object after the call. *)
Definition getCurrentPhase (this : t) : TrafficLightPhase * t :=
  (_currentPhase this, this).

(** An element of the vector [threads] of the base class, by what the
    thread runs: [cycleThroughPhases] on the controller with the given
    [_id]. *)
Inductive task := CycleThroughPhases (light : nat).

(** [void TrafficLight::simulate()], lines 75-79:
    [threads.emplace_back(std::thread(&TrafficLight::cycleThroughPhases, this))].
    The controller and the vector after the call. *)
Definition simulate (this : t) (threads : list task) : t * list task :=
  (this, threads ++ [CycleThroughPhases (_id this)]).

(** What the background cycle does, in the order in which it does it. *)
Inductive event :=
| EvSleep                                   (* line 98 *)
| EvToggle (p : TrafficLightPhase)          (* line 105 *)
| EvPrint (id : nat) (p : TrafficLightPhase)  (* line 107 *)
| EvClear                                   (* line 109 *)
| EvAsyncSend (p : TrafficLightPhase)       (* line 110 *)
| EvWait                                    (* line 111 *)
| EvReset (now : Z)                         (* line 114 *)
| EvDraw (d : Z).                           (* lines 92 and 117 *)

Inductive result (A : Type) :=
| Ok (a : A)
| Stalled         (* the cycle waits for a call that does not complete *)
| Crashed.        (* undefined behaviour *)
Arguments Ok {A}.
Arguments Stalled {A}.
Arguments Crashed {A}.

Section Cycle.
(** [std::mt19937] and [std::uniform_int_distribution<int>] belong to the
    C++ library: the state of the engine and the draw of a distribution with
    bounds [a] and [b] from an engine are parameters. *)
Variable engine : Type.
Variable uniform_int_distribution : Z → Z → engine → Z * engine.
(** Ticks of [std::chrono::system_clock] in one second. *)
Variable ticks_per_second : Z.
(** The thread that runs the cycle, and the thread that [std::async]
    starts for [send]. *)
Variables self async : tid.

(** The controller together with the locals of [cycleThroughPhases], the
    lines written to [std::cout], and the events so far. *)
Record cycle := mkCycle {
  this : t;
  engine_state : engine;
  cycleDuration : Z;
  lastUpdate : Z;
  cout : list (nat * TrafficLightPhase);
  trace : list event
}.

(** What the environment supplies to one round of the loop: the two
    readings of the clock (lines 100 and 114), the waiter that a
    [notify_one] wakes, and what the calls that other threads have made on
    the queue since the previous round (calls that have returned, or that
    are parked in [wait], and so have released the mutex) have made of the
    container and of the parked threads. *)
Record tick := mkTick {
  now : Z;
  now' : Z;
  pick : nat;
  others : list TrafficLightPhase * list tid
           → list TrafficLightPhase * list tid
}.

Definition M (A : Type) : Type := cycle → result (A * cycle).

Definition ret {A} (a : A) : M A := λ w, Ok (a, w).
Definition bind {A B} (k : A → M B) (m : M A) : M B :=
  λ w, match m w with
       | Ok (a, w') => k a w'
       | Stalled => Stalled
       | Crashed => Crashed
       end.

#[local] Instance cycle_ret : MRet M := @ret.
#[local] Instance cycle_bind : MBind M := @bind.

Definition modify (f : cycle → cycle) : M unit := λ w, Ok (tt, f w).
Definition get {A} (f : cycle → A) : M A := λ w, Ok (f w, w).

Definition emit (e : event) : M unit :=
  modify (λ w, mkCycle (this w) (engine_state w) (cycleDuration w)
                 (lastUpdate w) (cout w) (trace w ++ [e])).

Definition sleep (ms : Z) : M unit := emit EvSleep.

(** The other threads act on the queue. *)
Definition interfere
    (f : list TrafficLightPhase * list tid
         → list TrafficLightPhase * list tid) : M unit :=
  modify (λ w,
    let q := _msgQueue (this w) in
    let r := f (MessageQueue._messages q, MessageQueue._condition q) in
    mkCycle (mk (_currentPhase (this w))
               (MessageQueue.mk r.1 (MessageQueue._mutex q) r.2)
               (_id (this w)))
      (engine_state w) (cycleDuration w) (lastUpdate w) (cout w) (trace w)).

(** [duration_cast<seconds>(system_clock::now() - lastUpdate).count()]:
    the cast rounds toward zero. *)
Definition elapsed (now : Z) : M Z :=
  get (λ w, (now - lastUpdate w) `quot` ticks_per_second)%Z.

Definition set_phase (p : TrafficLightPhase) : M unit :=
  modify (λ w, mkCycle (mk p (_msgQueue (this w)) (_id (this w)))
                 (engine_state w) (cycleDuration w) (lastUpdate w)
                 (cout w) (trace w)) ;;
  emit (EvToggle p).

(** [std::cout << "TrafficLight #" << _id << ": State " << (int)_currentPhase]:
    a line is kept as the pair of the two values it shows. *)
Definition print : M unit :=
  id ← get (λ w, _id (this w));
  p ← get (λ w, _currentPhase (this w));
  modify (λ w, mkCycle (this w) (engine_state w) (cycleDuration w)
                 (lastUpdate w) (cout w ++ [(id, p)]) (trace w)) ;;
  emit (EvPrint id p).

(** Thread [me] calls a method of [_msgQueue] and the cycle goes on when
    the call has returned. *)
Definition on_queue (me : tid) (pick : nat)
    (method : list (MessageQueue.instr TrafficLightPhase)) : M unit :=
  λ w, match MessageQueue.run pick me method None (_msgQueue (this w)) with
       | MessageQueue.Returned _ q =>
           Ok (tt, mkCycle (mk (_currentPhase (this w)) q (_id (this w)))
                     (engine_state w) (cycleDuration w) (lastUpdate w)
                     (cout w) (trace w))
       | MessageQueue.Suspended _ _ _ => Stalled
       | MessageQueue.Fault => Crashed
       end.

Definition reset (now : Z) : M unit :=
  modify (λ w, mkCycle (this w) (engine_state w) (cycleDuration w) now
                 (cout w) (trace w)) ;;
  emit (EvReset now).

(** [std::uniform_int_distribution<int> secondsList(5, 8)], line 91. *)
Definition secondsList : engine → Z * engine :=
  uniform_int_distribution 5 8.

(** [cycleDuration = std::chrono::duration<int>(secondsList(engine))]. *)
Definition draw : M unit :=
  e ← get engine_state;
  modify (λ w, mkCycle (this w) (secondsList e).2 (secondsList e).1
                 (lastUpdate w) (cout w) (trace w)) ;;
  emit (EvDraw (secondsList e).1).

(** One round of the loop of [cycleThroughPhases], lines 96-118. *)
Definition iteration (i : tick) : M unit :=
  interfere (others i) ;;
  sleep 1 ;;
  timeSinceLastUpdate ← elapsed (now i);
  duration ← get cycleDuration;
  if (timeSinceLastUpdate >=? duration)%Z then
    p ← get (λ w, _currentPhase (this w));
    set_phase (if phase_eqb p red then green else red) ;;
    print ;;
    emit EvClear ;; on_queue self (pick i) MessageQueue.clear ;;
    p' ← get (λ w, _currentPhase (this w));
    emit (EvAsyncSend p') ;; on_queue async (pick i) (MessageQueue.send p') ;;
    emit EvWait ;;
    reset (now' i) ;;
    draw
  else ret tt.

(** The state in which the loop is entered, lines 89-94: [seed] is the
    engine as seeded from [std::random_device], [now0] the first reading
    of the clock. *)
Definition enter (seed : engine) (now0 : Z) (light : t) : cycle :=
  mkCycle light (secondsList seed).2 (secondsList seed).1 now0 []
    [EvDraw (secondsList seed).1].

(** The first rounds of the loop, one for each element of [ticks]. *)
Fixpoint rounds (ticks : list tick) : M unit :=
  match ticks with
  | [] => ret tt
  | i :: rest => iteration i ;; rounds rest
  end.

(** [void TrafficLight::cycleThroughPhases()], lines 82-120, up to the end
    of the round of the last of [ticks]. *)
Definition cycleThroughPhases (seed : engine) (now0 : Z) (ticks : list tick)
    (light : t) : result cycle :=
  match rounds ticks (enter seed now0 light) with
  | Ok (_, w) => Ok w
  | Stalled => Stalled
  | Crashed => Crashed
  end.

(** The phases the controller has been in: the one it had when the cycle
    was entered, and the one after each toggle. *)
Definition toggles (l : list event) : list TrafficLightPhase :=
  omap (λ e, match e with EvToggle p => Some p | _ => None end) l.

(** The durations drawn. *)
Definition draws (l : list event) : list Z :=
  omap (λ e, match e with EvDraw d => Some d | _ => None end) l.

(** The phases so far go red, green, red, ..., and the last of them is the
    current one. *)
Definition alternates (w : cycle) : Prop :=
  last (red :: toggles (trace w)) = Some (_currentPhase (this w)) ∧
  ∀ k p, (red :: toggles (trace w)) !! k = Some p →
         p = if Nat.even k then red else green.

(** The duration in use and all the durations drawn lie between 5 and 8;
    the one in use is the one drawn last, and one duration has been drawn on
    entry and one after each toggle. *)
Definition durations_ok (w : cycle) : Prop :=
  (5 ≤ cycleDuration w ≤ 8)%Z ∧
  Forall (λ d, 5 ≤ d ≤ 8)%Z (draws (trace w)) ∧
  last (draws (trace w)) = Some (cycleDuration w) ∧
  length (draws (trace w)) = S (length (toggles (trace w))).

(** Every toggle so far has been printed, with the [_id] [id] of the
    controller. *)
Definition printed (id : nat) (w : cycle) : Prop :=
  _id (this w) = id ∧ cout w = (λ p, (id, p)) <$> toggles (trace w).

(** The container holds nothing, or the current phase and nothing else. *)
Definition single_slot (w : cycle) : Prop :=
  MessageQueue._messages (_msgQueue (this w)) = []
  ∨ MessageQueue._messages (_msgQueue (this w)) = [_currentPhase (this w)].

(** In the round of [i] the other threads have only taken elements out of
    the container. *)
Definition consuming (i : tick) : Prop :=
  ∀ l c, (others i (l, c)).1 `sublist_of` l.
End Cycle.

Arguments this {engine}.
Arguments engine_state {engine}.
Arguments cycleDuration {engine}.
Arguments lastUpdate {engine}.
Arguments cout {engine}.
Arguments trace {engine}.
Arguments mkCycle {engine}.
Arguments alternates {engine}.
Arguments durations_ok {engine}.
Arguments printed {engine}.
Arguments single_slot {engine}.

End TrafficLight.

(** * Properties *)

(** ** One thread on the queue *)

Section RunFacts.
Context {T : Type}.
Implicit Types (q : MessageQueue.t T) (me pick : nat) (v x : T) (l : list T).

Import MessageQueue.

Lemma removelast_snoc (l : list T) x : removelast (l ++ [x]) = l.
Proof. by rewrite removelast_last. Qed.

Lemma run_cons pick me i c (m : option T) q :
  run pick me (i :: c) m q
  = match exec pick me i m q with
    | Done q' m' => run pick me c m' q'
    | Park q' => Suspended (cv_reacquire :: i :: c) m q'
    | NotReady => Suspended (i :: c) m q
    | Undefined => Fault
    end.
Proof. done. Qed.

(** Waking a thread that is not parked changes nothing. *)
Lemma filter_ne_absent me (w : list nat) :
  me ∉ w → filter (λ t, t ≠ me) w = w.
Proof.
  induction w as [|t w IH]; [done|].
  intros [Hne Hin]%not_elem_of_cons.
  rewrite filter_cons_True by done. by rewrite IH.
Qed.

Lemma filter_ne_parked me (w : list nat) :
  me ∉ w → filter (λ t, t ≠ me) (w ++ [me]) = w.
Proof.
  intros Hin. rewrite filter_app, filter_ne_absent by done.
  rewrite filter_cons_False by naive_solver. apply app_nil_r.
Qed.

(** Calls made one after the other by one thread. *)
Lemma run_app pick me c1 c2 (m m1 : option T) q q1 :
  run pick me c1 m q = Returned m1 q1 →
  run pick me (c1 ++ c2) m q = run pick me c2 m1 q1.
Proof.
  revert m q. induction c1 as [|i c1 IH]; intros m q.
  - by intros [= -> ->].
  - cbn [app]. rewrite !run_cons.
    destruct (exec pick me i m q); try done. apply IH.
Qed.

Lemma run_critical_section pick me l x w :
  run pick me [cv_wait; move_back; pop_back; release] None
      (mk (l ++ [x]) (Some me) w)
  = Returned (Some x) (mk l None w).
Proof.
  cbn [run exec _mutex _messages].
  rewrite decide_True by done.
  destruct (l ++ [x]) eqn:E; [by destruct l|]. rewrite <- E.
  cbn [run exec _messages]. rewrite last_snoc.
  cbn [run exec _messages]. rewrite E, <- E.
  unfold set_messages. cbn [_messages _mutex _condition run exec].
  rewrite decide_True by done.
  by rewrite removelast_snoc.
Qed.

Lemma run_receive_takes pick me l x w :
  run pick me receive None (mk (l ++ [x]) None w)
  = Returned (Some x) (mk l None w).
Proof. apply run_critical_section. Qed.

Lemma run_receive_parks pick me w :
  run (T:=T) pick me receive None (mk [] None w)
  = Suspended waiting None (mk [] None (w ++ [me])).
Proof. cbn. by rewrite decide_True. Qed.

Lemma run_receive_contended pick me q other :
  _mutex q = Some other → other ≠ me →
  run pick me receive None q = Suspended receive None q.
Proof.
  intros Hm Hne. cbn. unfold acquire. rewrite Hm.
  by rewrite decide_False.
Qed.

Lemma run_waiting_not_notified pick me q :
  me ∈ _condition q → run pick me waiting None q = Suspended waiting None q.
Proof. intros Hin. cbn. by rewrite decide_True. Qed.

Lemma run_waiting_parks pick me w :
  me ∉ w →
  run (T:=T) pick me waiting None (mk [] None w)
  = Suspended waiting None (mk [] None (w ++ [me])).
Proof.
  intros Hin. cbn. rewrite decide_False by done. cbn.
  by rewrite decide_True.
Qed.

Lemma run_waiting_takes pick me l x w :
  me ∉ w →
  run pick me waiting None (mk (l ++ [x]) None w)
  = Returned (Some x) (mk l None w).
Proof.
  intros Hin. unfold waiting. rewrite run_cons.
  cbn [exec _condition]. rewrite decide_False by done.
  unfold acquire, set_mutex. cbn [_mutex _messages _condition].
  apply run_critical_section.
Qed.

Lemma run_send pick me v l w :
  run pick me (send v) None (mk l None w)
  = Returned None (mk (l ++ [v]) None (delete (pick `mod` length w) w)).
Proof. cbn. by rewrite decide_True. Qed.

Lemma run_clear pick me q :
  run pick me clear None q = Returned None (set_messages [] q).
Proof. done. Qed.
End RunFacts.

(** ** Threads interleaved on the queue *)

Section SchedFacts.
Context {T : Type}.
Implicit Types (s : System.t T) (th : System.thread T)
  (q : MessageQueue.t T) (i : MessageQueue.instr T) (me pick : nat).

Import MessageQueue System.

(** The three ways in which a thread takes a step. *)
Lemma step_inv me pick s s' :
  step (Step me pick) s = Some s' →
  ∃ th, pool s !! me = Some th ∧
    ((∃ i rest q' m',
        code th = i :: rest ∧ exec pick me i (msg th) (queue s) = Done q' m' ∧
        s' = System.mk q'
               (<[me := mkThread rest m' (loop th) (received th)]> (pool s))
               (log s ++ [mkEntry me i (_mutex (queue s))]))
     ∨ (∃ i rest q',
        code th = i :: rest ∧ exec pick me i (msg th) (queue s) = Park q' ∧
        s' = System.mk q'
               (<[me := mkThread (cv_reacquire :: i :: rest) (msg th)
                          (loop th) (received th)]> (pool s))
               (log s ++ [mkEntry me i (_mutex (queue s))]))
     ∨ (∃ body stop v,
        code th = [] ∧ loop th = Some (body, stop) ∧ msg th = Some v ∧
        s' = System.mk (queue s)
               (<[me :=
                    if stop v
                    then mkThread [] (Some v) None (received th ++ [v])
                    else mkThread body None (loop th) (received th ++ [v])]>
                  (pool s))
               (log s))).
Proof.
  intros H. unfold step in H.
  destruct (pool s !! me) as [th|] eqn:Hth; simpl in H; [|done].
  exists th. split; [done|].
  destruct (code th) as [|i rest] eqn:Hc.
  - right; right. destruct (loop th) as [[body stop]|]; [|done].
    destruct (msg th) as [v|]; [|done].
    injection H as <-. by exists body, stop, v.
  - destruct (exec pick me i (msg th) (queue s)) as [q' m'|q'| |] eqn:He;
      try done; injection H as <-.
    + left. by exists i, rest, q', m'.
    + right; left. by exists i, rest, q'.
Qed.

Lemma sched_app a1 a2 s :
  sched (a1 ++ a2) s = s' ← sched a1 s; sched a2 s'.
Proof.
  revert s. induction a1 as [|a a1 IH]; intros s; [done|].
  simpl. destruct (step a s); [apply IH|done].
Qed.

(** An invariant of single steps is an invariant of schedules. *)
Lemma sched_ind (P : System.t T → Prop) :
  (∀ a s s', P s → step a s = Some s' → P s') →
  ∀ acts s s', P s → sched acts s = Some s' → P s'.
Proof.
  intros Hstep acts. induction acts as [|a acts IH]; intros s s' HP.
  - by intros [= <-].
  - simpl. destruct (step a s) as [s1|] eqn:Hs; [|done]. simpl.
    eauto.
Qed.

(** *** Elements are popped only after they were pushed *)

Lemma pops_snoc (l : list (entry T)) e :
  pops (l ++ [e]) = pops l + (if is_pop (what e) then 1 else 0).
Proof.
  unfold pops. rewrite filter_app, length_app. f_equal.
  rewrite filter_cons, filter_nil. by destruct (is_pop (what e)).
Qed.

Lemma pushes_snoc (l : list (entry T)) e :
  pushes (l ++ [e]) = pushes l + (if is_push (what e) then 1 else 0).
Proof.
  unfold pushes. rewrite filter_app, length_app. f_equal.
  rewrite filter_cons, filter_nil. by destruct (is_push (what e)).
Qed.

Lemma length_removelast {A} (l : list A) :
  length (removelast l) = pred (length l).
Proof.
  destruct l as [|a l] using rev_ind; [done|].
  rewrite removelast_last, length_app. cbn. lia.
Qed.

(** How a completed step changes the number of stored elements. *)
Lemma exec_length pick me i m q q' m' :
  exec pick me i m q = Done q' m' →
  length (_messages q') + (if is_pop i then 1 else 0)
  ≤ length (_messages q) + (if is_push i then 1 else 0).
Proof.
  destruct i; cbn [exec is_pop is_push]; unfold acquire; intros H;
    repeat case_decide; repeat case_match; simplify_eq;
    unfold set_messages, set_mutex, set_condition; cbn [_messages];
    rewrite ?length_removelast, ?length_app;
    repeat match goal with E : _messages _ = _ |- _ => rewrite E end;
    simpl length; try lia.
  match goal with E : _messages _ = ?x :: ?l |- _ =>
    change (length (removelast (x :: l)) + 1 ≤ S (length l) + 0)
  end.
  rewrite length_removelast. simpl. lia.
Qed.

Lemma exec_park pick me i m q q' :
  exec pick me i m q = Park q' →
  i = cv_wait ∧ _mutex q = Some me ∧ _messages q = [] ∧
  q' = MessageQueue.mk [] None (_condition q ++ [me]).
Proof.
  destruct i; cbn; unfold acquire; intros H;
    repeat (case_decide || case_match); simplify_eq.
  unfold set_condition, set_mutex. cbn. by destruct q; simplify_eq/=.
Qed.

Lemma step_balanced n0 a s s' :
  balanced n0 s → step a s = Some s' → balanced n0 s'.
Proof.
  unfold balanced. destruct a as [me pick|me].
  - intros Hb (th & Hth & [H|[H|H]])%step_inv.
    + destruct H as (i & rest & q' & m' & Hc & He & ->). cbn [queue log].
      apply exec_length in He. rewrite pops_snoc, pushes_snoc.
      cbn [what]. lia.
    + destruct H as (i & rest & q' & Hc & He & ->). cbn [queue log].
      apply exec_park in He as (-> & _ & Hm & ->).
      rewrite pops_snoc, pushes_snoc. cbn. lia.
    + destruct H as (body & stop & v & _ & _ & _ & ->). done.
  - intros Hb [= <-]. done.
Qed.

Lemma sched_balanced n0 acts s s' :
  balanced n0 s → sched acts s = Some s' → balanced n0 s'.
Proof. apply sched_ind. intros a. apply step_balanced. Qed.

(** *** The lock discipline of [send] and [receive] *)

Lemma exec_guarded pick me i rest m q q' m' held :
  guarded held (i :: rest) = true →
  (held = true ↔ _mutex q = Some me) →
  exec pick me i m q = Done q' m' →
  (touches i = true → _mutex q = Some me) ∧
  ∃ held', guarded held' rest = true ∧
           (held' = true ↔ _mutex q' = Some me) ∧
           ∀ other, other ≠ me →
             (_mutex q' = Some other ↔ _mutex q = Some other).
Proof.
  intros Hg [Hh1 Hh2] He.
  destruct held, i; cbn [guarded touches andb negb] in Hg |- *; try done;
    cbn [exec] in He; unfold acquire in He;
    repeat case_decide; repeat case_match; simplify_eq;
    unfold set_messages, set_mutex, set_condition; cbn [_mutex];
    (split; [naive_solver|]);
    first [ by exists true; naive_solver | by exists false; naive_solver ].
Qed.

Lemma step_disciplined a s s' :
  disciplined s ∧ Forall locked (log s) →
  step a s = Some s' →
  disciplined s' ∧ Forall locked (log s').
Proof.
  intros [Hd Hl]. destruct a as [me pick|me]; [|by intros [= <-]].
  intros (th & Hth & [H|[H|H]])%step_inv;
    destruct (Hd me th Hth) as [(held & Hg & Hh) Hloop].
  - destruct H as (i & rest & q' & m' & Hc & He & ->). rewrite Hc in Hg.
    destruct (exec_guarded _ _ _ _ _ _ _ _ _ Hg Hh He)
      as (Htouch & held' & Hg' & Hh' & Hother).
    split.
    + intros t th'. cbn [pool queue].
      destruct (decide (t = me)) as [->|Hne].
      * rewrite lookup_insert_eq. intros [= <-]. cbn [code loop]. eauto.
      * rewrite lookup_insert_ne by done. intros Ht.
        destruct (Hd t th' Ht) as [(h & ? & ?) ?].
        split; [|done]. exists h. split; [done|].
        by rewrite (Hother t Hne).
    + cbn [log]. apply Forall_app. split; [done|].
      apply Forall_singleton. exact Htouch.
  - destruct H as (i & rest & q' & Hc & He & ->). rewrite Hc in Hg.
    apply exec_park in He as (-> & Hm & _ & ->).
    cbn [guarded] in Hg. apply andb_true_iff in Hg as [-> Hg].
    split.
    + intros t th'. cbn [pool queue _mutex].
      destruct (decide (t = me)) as [->|Hne].
      * rewrite lookup_insert_eq. intros [= <-]. cbn [code loop].
        split; [|done]. exists false. cbn [guarded negb andb].
        by rewrite Hg.
      * rewrite lookup_insert_ne by done. intros Ht.
        destruct (Hd t th' Ht) as [(h & ? & Hiff) ?].
        split; [|done]. exists h. split; [done|].
        rewrite Hiff, Hm. split; [by intros [= ->]|done].
    + cbn [log]. apply Forall_app. split; [done|].
      apply Forall_singleton. by intros _.
  - destruct H as (body & stop & v & Hc & Hlp & Hv & ->). rewrite Hc in Hg.
    cbn [guarded] in Hg. apply negb_true_iff in Hg as ->.
    split; [|done].
    intros t th'. cbn [pool queue].
    destruct (decide (t = me)) as [->|Hne].
    + rewrite lookup_insert_eq. intros [= <-].
      destruct (stop v); cbn [code loop].
      * split; [by exists false|done].
      * split; [|done]. exists false. split; [|done]. eauto.
    + rewrite lookup_insert_ne by done. apply Hd.
Qed.

(** Threads that keep the discipline never touch the container without
    owning the mutex, however they are interleaved. *)
Lemma sched_disciplined acts s s' :
  disciplined s → Forall locked (log s) →
  sched acts s = Some s' →
  disciplined s' ∧ Forall locked (log s').
Proof.
  intros Hd Hl.
  apply (sched_ind (λ s, disciplined s ∧ Forall locked (log s)));
    [|done].
  intros a. apply step_disciplined.
Qed.

Lemma guarded_send (v : T) : guarded false (send v) = true.
Proof. done. Qed.

Lemma guarded_receive : guarded (T:=T) false receive = true.
Proof. done. Qed.

Lemma guarded_clear : guarded (T:=T) false clear = false.
Proof. done. Qed.
End SchedFacts.

(** ** The background cycle *)

Section CycleFacts.
Context {engine : Type}.
Variable uniform_int_distribution : Z → Z → engine → Z * engine.
Variable ticks_per_second : Z.
Variables self async : nat.

Import TrafficLight.

Abbreviation cycle := (cycle engine).
Abbreviation iteration :=
  (iteration engine uniform_int_distribution ticks_per_second self async).
Abbreviation rounds :=
  (rounds engine uniform_int_distribution ticks_per_second self async).
Abbreviation secondsList := (secondsList engine uniform_int_distribution).
Implicit Types (w : cycle) (i : tick).

Ltac cycle_simpl :=
  cbv beta iota delta
    [TrafficLight.iteration mbind TrafficLight.cycle_bind TrafficLight.bind
     TrafficLight.sleep TrafficLight.interfere TrafficLight.elapsed
     TrafficLight.get fst snd
     TrafficLight.print TrafficLight.set_phase TrafficLight.reset
     TrafficLight.draw TrafficLight.emit TrafficLight.modify
     TrafficLight.on_queue TrafficLight.ret mret TrafficLight.cycle_ret
     TrafficLight.this TrafficLight.lastUpdate TrafficLight.cycleDuration
     TrafficLight.engine_state TrafficLight.cout TrafficLight.trace
     TrafficLight._currentPhase TrafficLight._msgQueue TrafficLight._id
     MessageQueue._messages MessageQueue._mutex MessageQueue._condition].

(** The state after a round in which the phase was toggled. *)
Lemma iteration_toggles i w :
  MessageQueue._mutex (_msgQueue (this w)) = None →
  (cycleDuration w ≤ (now i - lastUpdate w) `quot` ticks_per_second)%Z →
  let p := if phase_eqb (_currentPhase (this w)) red then green else red in
  let parked :=
    (others i (MessageQueue._messages (_msgQueue (this w)),
               MessageQueue._condition (_msgQueue (this w)))).2 in
  iteration i w =
  Ok (tt,
      mkCycle
        (mk p (MessageQueue.mk [p] None
                 (delete (pick i `mod` length parked) parked))
           (_id (this w)))
        (secondsList (engine_state w)).2
        (secondsList (engine_state w)).1
        (now' i)
        (cout w ++ [(_id (this w), p)])
        (trace w ++ [EvSleep; EvToggle p; EvPrint (_id (this w)) p; EvClear;
                     EvAsyncSend p; EvWait; EvReset (now' i);
                     EvDraw (secondsList (engine_state w)).1])).
Proof.
  intros Hm Hle. destruct w as [[p0 [l m c] id] e d t0 out tr].
  cbn in Hm, Hle. subst m.
  cycle_simpl.
  replace (_ >=? d)%Z with true by (symmetry; apply Z.geb_le; exact Hle).
  cycle_simpl. rewrite run_clear. unfold MessageQueue.set_messages.
  cycle_simpl. rewrite run_send. cycle_simpl.
  repeat rewrite <- app_assoc. reflexivity.
Qed.

(** The state after a round in which the duration has not elapsed. *)
Lemma iteration_idles i w :
  ((now i - lastUpdate w) `quot` ticks_per_second < cycleDuration w)%Z →
  let q := _msgQueue (this w) in
  let r := others i (MessageQueue._messages q, MessageQueue._condition q) in
  iteration i w =
  Ok (tt, mkCycle
            (mk (_currentPhase (this w))
               (MessageQueue.mk r.1 (MessageQueue._mutex q) r.2)
               (_id (this w)))
            (engine_state w) (cycleDuration w) (lastUpdate w)
            (cout w) (trace w ++ [EvSleep])).
Proof.
  intros Hlt. destruct w as [tl e d t0 out tr]. cbn in Hlt.
  cycle_simpl.
  replace (_ >=? d)%Z with false; [done|].
  symmetry. rewrite Z.geb_leb. apply Z.leb_gt. exact Hlt.
Qed.

Lemma toggles_snoc (l : list event) e :
  toggles (l ++ [e])
  = toggles l ++ match e with EvToggle p => [p] | _ => [] end.
Proof. unfold toggles. rewrite omap_app. by destruct e. Qed.

Lemma draws_snoc (l : list event) e :
  draws (l ++ [e]) = draws l ++ match e with EvDraw d => [d] | _ => [] end.
Proof. unfold draws. rewrite omap_app. by destruct e. Qed.

(** A round that finds the mutex free completes, leaves the mutex free,
    and either changes nothing that the properties below look at, or
    toggles the phase once and draws one duration. *)
Lemma iteration_cases i w :
  MessageQueue._mutex (_msgQueue (this w)) = None →
  ∃ w', iteration i w = Ok (tt, w') ∧
    MessageQueue._mutex (_msgQueue (this w')) = None ∧
    ((_currentPhase (this w') = _currentPhase (this w) ∧
      toggles (trace w') = toggles (trace w) ∧
      draws (trace w') = draws (trace w) ∧
      cycleDuration w' = cycleDuration w)
     ∨
     (_currentPhase (this w')
        = (if phase_eqb (_currentPhase (this w)) red then green else red) ∧
      toggles (trace w') = toggles (trace w) ++ [_currentPhase (this w')] ∧
      draws (trace w') = draws (trace w) ++ [cycleDuration w'] ∧
      cycleDuration w' = (secondsList (engine_state w)).1)).
Proof.
  intros Hm.
  destruct (Z_le_gt_dec (cycleDuration w)
              ((now i - lastUpdate w) `quot` ticks_per_second)) as [Hle|Hgt].
  - eexists. split; [by apply iteration_toggles|].
    cbn [this trace cycleDuration _msgQueue _currentPhase
         MessageQueue._mutex].
    split; [done|]. right.
    unfold toggles, draws. rewrite !omap_app. by cbn.
  - eexists. split; [apply iteration_idles; lia|].
    cbn [this trace cycleDuration]. split; [done|]. left.
    by rewrite toggles_snoc, draws_snoc, !app_nil_r.
Qed.

(** A property kept by every completed round holds after any number of
    rounds, and these rounds do complete when the cycle starts with the
    mutex free. *)
Lemma rounds_invariant (P : cycle → Prop) :
  (∀ i w w',
      MessageQueue._mutex (_msgQueue (this w)) = None →
      P w → iteration i w = Ok (tt, w') → P w') →
  ∀ ticks w,
    MessageQueue._mutex (_msgQueue (this w)) = None → P w →
    ∃ w', rounds ticks w = Ok (tt, w') ∧
          MessageQueue._mutex (_msgQueue (this w')) = None ∧ P w'.
Proof.
  intros Hkeep ticks.
  induction ticks as [|i ticks IH]; intros w Hm HP; [by exists w|].
  destruct (iteration_cases i w Hm) as (w1 & Hi & Hm1 & _).
  destruct (IH w1 Hm1 (Hkeep i w w1 Hm HP Hi)) as (w' & Hr & Hm' & HP').
  exists w'. split; [|done].
  cbn [TrafficLight.rounds]. unfold mbind, cycle_bind, bind.
  by rewrite Hi.
Qed.

Lemma iteration_alternates i w w' :
  MessageQueue._mutex (_msgQueue (this w)) = None →
  alternates w → iteration i w = Ok (tt, w') → alternates w'.
Proof.
  intros Hm [Hlast Halt] Hi.
  destruct (iteration_cases i w Hm) as (w1 & Hi1 & _ & Hcase).
  rewrite Hi in Hi1. injection Hi1 as <-.
  destruct Hcase as [(Hp & Ht & _ & _)|(Hp & Ht & _ & _)].
  { unfold alternates. by rewrite Hp, Ht. }
  unfold alternates. rewrite Ht.
  change (red :: ?l ++ ?r) with ((red :: l) ++ r).
  set (L := red :: toggles (trace w)) in *.
  split; [by rewrite last_snoc|].
  assert (HL : ∃ n, length L = S n) by (by exists (length (toggles (trace w)))).
  destruct HL as [n Hn].
  rewrite last_lookup, Hn in Hlast. cbn [pred] in Hlast.
  apply Halt in Hlast.
  intros k p Hk.
  destruct (decide (k < length L)) as [Hlt|Hge].
  - rewrite lookup_app_l in Hk by done. by apply Halt.
  - rewrite lookup_app_r in Hk by lia.
    destruct (k - length L) as [|?] eqn:Hd; [|done].
    injection Hk as <-. assert (k = S n) as -> by lia.
    rewrite Hp, Hlast, Nat.even_succ, <- Nat.negb_even.
    by destruct (Nat.even n).
Qed.


Lemma iteration_durations i w w' :
  (∀ a b e, (a ≤ b)%Z → (a ≤ (uniform_int_distribution a b e).1 ≤ b)%Z) →
  MessageQueue._mutex (_msgQueue (this w)) = None →
  durations_ok w → iteration i w = Ok (tt, w') → durations_ok w'.
Proof.
  intros Hrange Hm (Hd & Hall & Hlast & Hlen) Hi.
  destruct (iteration_cases i w Hm) as (w1 & Hi1 & _ & Hcase).
  rewrite Hi in Hi1. injection Hi1 as <-.
  destruct Hcase as [(_ & Ht & Hdr & Hc)|(_ & Ht & Hdr & Hc)];
    unfold durations_ok; rewrite Ht, Hdr.
  { by rewrite Hc. }
  assert (Hin : (5 ≤ cycleDuration w' ≤ 8)%Z).
  { rewrite Hc. apply Hrange. lia. }
  split; [done|]. split; [by apply Forall_app; split; [|apply Forall_singleton]|].
  split; [by rewrite last_snoc|].
  rewrite !length_app. cbn [length]. lia.
Qed.
End CycleFacts.

(** ** Threads in [waitForGreen] *)

Section WaitFacts.
Import MessageQueue System.
Implicit Types (s : System.t TrafficLightPhase)
  (th : System.thread TrafficLightPhase).

Lemma replicate_snoc {A} n (x : A) : replicate n x ++ [x] = replicate (S n) x.
Proof. induction n as [|n IH]; [done|]. cbn. by rewrite IH. Qed.

Lemma step_waits_for_green a s s' me :
  (∃ th, pool s !! me = Some th ∧ TrafficLight.waits_for_green th) →
  step a s = Some s' →
  ∃ th, pool s' !! me = Some th ∧ TrafficLight.waits_for_green th.
Proof.
  intros (th & Hth & Hw). destruct a as [t pick|t].
  2:{ intros [= <-]. by exists th. }
  intros (th0 & Hth0 & Hstep)%step_inv.
  destruct (decide (t = me)) as [->|Hne].
  2:{ exists th. split; [|done].
      destruct Hstep as [H|[H|H]].
      - destruct H as (? & ? & ? & ? & _ & _ & ->).
        cbn [pool]. by rewrite lookup_insert_ne.
      - destruct H as (? & ? & ? & _ & _ & ->).
        cbn [pool]. by rewrite lookup_insert_ne.
      - destruct H as (? & ? & ? & _ & _ & _ & ->).
        cbn [pool]. by rewrite lookup_insert_ne. }
  rewrite Hth in Hth0. injection Hth0 as <-.
  destruct Hw as [n [[Hl Hr]|[[Hc Hl] Hr]]].
  - destruct Hstep as [H|[H|H]].
    + destruct H as (i & rest & q' & m' & _ & _ & ->). cbn [pool].
      rewrite lookup_insert_eq. eexists. split; [done|].
      exists n. by left.
    + destruct H as (i & rest & q' & _ & _ & ->). cbn [pool].
      rewrite lookup_insert_eq. eexists. split; [done|].
      exists n. by left.
    + destruct H as (body & stop & v & Hc & Hlp & Hv & ->). cbn [pool].
      rewrite lookup_insert_eq. eexists. split; [done|].
      rewrite Hl in Hlp. cbn in Hlp. injection Hlp as <- <-.
      destruct v; cbn [phase_eqb].
      * exists (S n). left. cbn [loop received]. split; [done|].
        by rewrite Hr, replicate_snoc.
      * exists n. right. cbn [received]. rewrite Hr. by split.
  - destruct Hstep as [H|[H|H]].
    + destruct H as (i & rest & q' & m' & Hc' & _). congruence.
    + destruct H as (i & rest & q' & Hc' & _). congruence.
    + destruct H as (body & stop & v & _ & Hlp & _). congruence.
Qed.

Lemma sched_waits_for_green acts s s' me :
  pool s !! me = Some TrafficLight.waitForGreen →
  sched acts s = Some s' →
  ∃ th, pool s' !! me = Some th ∧ TrafficLight.waits_for_green th.
Proof.
  intros Hme.
  apply (sched_ind
           (λ s, ∃ th, pool s !! me = Some th ∧
                       TrafficLight.waits_for_green th)).
  - intros a s1 s2. apply step_waits_for_green.
  - eexists. split; [done|]. exists 0. by left.
Qed.
End WaitFacts.


(** ** What [waitForGreen] takes from the queue *)

Section FollowFacts.
Import MessageQueue System.
Implicit Types (s : System.t TrafficLightPhase)
  (th : System.thread TrafficLightPhase).

(** Only [move_back] changes the local [msg], to the back element. *)
Lemma exec_msg {T} pick me (i : instr T) (m : option T) q q' m' :
  exec pick me i m q = Done q' m' →
  (i = move_back ∧ ∃ x, last (_messages q) = Some x ∧ m' = Some x)
  ∨ (i ≠ move_back ∧ m' = m).
Proof.
  destruct i; cbn [exec]; unfold acquire; intros H;
    repeat case_decide; repeat case_match; simplify_eq;
    first [ by right | left; split; [done|]; by eexists ].
Qed.

Lemma moves_other {T} me t pick (s : System.t T) :
  t ≠ me → moves me (Step t pick) s = [].
Proof. intros Hne. unfold moves. by rewrite decide_False. Qed.

Lemma moves_self {T} me pick (s : System.t T) (th0 : System.thread T) :
  pool s !! me = Some th0 →
  moves me (Step me pick) s
  = match code th0 with
    | move_back :: _ => option_list (last (_messages (queue s)))
    | _ => []
    end.
Proof. intros Hth. unfold moves. by rewrite decide_True, Hth. Qed.

Lemma before_move_cons i rest :
  TrafficLight.before_move (i :: rest) →
  (i = move_back ∧ rest = [pop_back; release])
  ∨ (i ≠ move_back ∧ TrafficLight.before_move rest).
Proof.
  unfold TrafficLight.before_move.
  intros [H|[H|[H|[H|H]]]]; injection H as -> ->; auto 10.
Qed.

Lemma before_move_park rest :
  TrafficLight.before_move (cv_wait :: rest) →
  TrafficLight.before_move (cv_reacquire :: cv_wait :: rest).
Proof.
  unfold TrafficLight.before_move.
  intros [H|[H|[H|[H|H]]]]; try discriminate H.
  injection H as ->. auto 10.
Qed.

Lemma after_move_cons i rest :
  TrafficLight.after_move (i :: rest) →
  i ≠ move_back ∧ TrafficLight.after_move rest.
Proof.
  unfold TrafficLight.after_move.
  intros [H|[H|H]]; try discriminate H; injection H as -> ->; auto.
Qed.

Lemma moved_app {T} me acts1 acts2 (s s1 : System.t T) :
  sched acts1 s = Some s1 →
  moved me (acts1 ++ acts2) s = moved me acts1 s ++ moved me acts2 s1.
Proof.
  revert s. induction acts1 as [|a acts1 IH]; intros s.
  - by intros [= <-].
  - cbn [sched moved app]. destruct (step a s) as [s0|]; [|done].
    cbn [mbind option_bind]. intros Hs. by rewrite (IH s0 Hs), app_assoc.
Qed.

Lemma step_follows a s s' me taken :
  (∃ th, pool s !! me = Some th ∧ TrafficLight.follows taken th) →
  step a s = Some s' →
  ∃ th, pool s' !! me = Some th
        ∧ TrafficLight.follows (taken ++ moves me a s) th.
Proof.
  intros (th & Hth & Hf). destruct a as [t pick|t].
  2:{ intros [= <-]. exists th. cbn [moves]. by rewrite app_nil_r. }
  intros (th0 & Hth0 & Hstep)%step_inv.
  destruct (decide (t = me)) as [->|Hne].
  2:{ exists th. rewrite moves_other, app_nil_r by done. split; [|done].
      destruct Hstep as [H|[H|H]].
      - destruct H as (? & ? & ? & ? & _ & _ & ->).
        cbn [pool]. by rewrite lookup_insert_ne.
      - destruct H as (? & ? & ? & _ & _ & ->).
        cbn [pool]. by rewrite lookup_insert_ne.
      - destruct H as (? & ? & ? & _ & _ & _ & ->).
        cbn [pool]. by rewrite lookup_insert_ne. }
  rewrite Hth in Hth0. injection Hth0 as <-.
  rewrite (moves_self me pick s th Hth).
  destruct Hstep as [H|[H|H]].
  - (* a primitive step that completes *)
    destruct H as (i & rest & q' & m' & Hc' & He & ->). cbn [pool].
    rewrite lookup_insert_eq. eexists. split; [done|]. rewrite Hc'.
    destruct Hf as [n [(Hl & Hm & Hc & Hr & Ht)|[(x & Hl & Hm & Hc & Hr & Ht)|
                       ([Hc Hl] & _)]]]; [| |congruence]; rewrite Hc' in Hc.
    + destruct (before_move_cons _ _ Hc) as [[-> ->]|[Hi Hrest]];
        destruct (exec_msg _ _ _ _ _ _ _ He) as [(Hi' & y & Hy & ->)|[Hi' ->]];
        try done.
      * rewrite Hy. cbn [option_list]. exists n. right. left. exists y.
        cbn [loop msg code received]. unfold TrafficLight.after_move.
        rewrite Ht. auto 10.
      * exists n. left. cbn [loop msg code received].
        replace (match i with move_back => _ | _ => [] end)
          with ([] : list TrafficLightPhase) by (by destruct i).
        rewrite app_nil_r. auto 10.
    + destruct (after_move_cons _ _ Hc) as [Hi Hrest].
      destruct (exec_msg _ _ _ _ _ _ _ He) as [(Hi' & _)|[_ ->]]; [done|].
      exists n. right. left. exists x. cbn [loop msg code received].
      replace (match i with move_back => _ | _ => [] end)
        with ([] : list TrafficLightPhase) by (by destruct i).
      rewrite app_nil_r. auto 10.
  - (* the wait parks the thread *)
    destruct H as (i & rest & q' & Hc' & He & ->). cbn [pool].
    rewrite lookup_insert_eq. eexists. split; [done|].
    apply exec_park in He as (-> & _). rewrite Hc', app_nil_r.
    destruct Hf as [n [(Hl & Hm & Hc & Hr & Ht)|[(x & Hl & Hm & Hc & Hr & Ht)|
                       ([Hc Hl] & _)]]]; [| |congruence]; rewrite Hc' in Hc.
    + exists n. left. cbn [loop msg code received].
      apply before_move_park in Hc. auto 10.
    + unfold TrafficLight.after_move in Hc. by destruct Hc as [Hc|[Hc|Hc]].
  - (* the test of the value *)
    destruct H as (body & stop & v & Hc' & Hlp & Hv & ->). cbn [pool].
    rewrite lookup_insert_eq. eexists. split; [done|].
    rewrite Hc', app_nil_r.
    destruct Hf as [n [(Hl & Hm & Hc & Hr & Ht)|[(x & Hl & Hm & Hc & Hr & Ht)|
                       ([Hc Hl] & _)]]]; [congruence| |congruence].
    rewrite Hl in Hlp. cbn in Hlp. injection Hlp as <- <-.
    rewrite Hm in Hv. injection Hv as <-.
    destruct x; cbn [phase_eqb].
    + exists (S n). left. cbn [loop msg code received].
      unfold TrafficLight.before_move.
      rewrite Ht, Hr, replicate_snoc. auto 10.
    + exists n. right. right. cbn [received]. rewrite Ht, Hr. by repeat split.
Qed.

Lemma sched_follows acts :
  ∀ s s' me taken,
    (∃ th, pool s !! me = Some th ∧ TrafficLight.follows taken th) →
    sched acts s = Some s' →
    ∃ th, pool s' !! me = Some th
          ∧ TrafficLight.follows (taken ++ moved me acts s) th.
Proof.
  induction acts as [|a acts IH]; intros s s' me taken Hf.
  - intros [= <-]. cbn [moved]. by rewrite app_nil_r.
  - cbn [sched moved]. destruct (step a s) as [s1|] eqn:Hs; [|done].
    cbn [mbind option_bind]. intros Hrest.
    rewrite app_assoc. eapply IH; [|exact Hrest].
    by eapply step_follows.
Qed.
End FollowFacts.
(** * The claims *)

(** C1.  Whatever the state of the queue, a thread that calls [receive] when
    the mutex is free does not return while the container is empty: it parks
    on the condition variable with the mutex released, stays there until it
    is woken, and parks again when it is woken with the container still
    empty.  When the container is not empty, the call (or the woken thread)
    returns the element at the back, the one inserted last, and removes that
    element and nothing else. *)
Theorem receive_blocks_then_takes_last {T : Type} (pick me : nat)
    (q : MessageQueue.t T) :
  MessageQueue._mutex q = None →
  (MessageQueue._messages q = [] →
     MessageQueue.run pick me MessageQueue.receive None q
     = MessageQueue.Suspended MessageQueue.waiting None
         (MessageQueue.mk [] None (MessageQueue._condition q ++ [me])))
  ∧ (me ∈ MessageQueue._condition q →
     MessageQueue.run pick me MessageQueue.waiting None q
     = MessageQueue.Suspended MessageQueue.waiting None q)
  ∧ (me ∉ MessageQueue._condition q → MessageQueue._messages q = [] →
     MessageQueue.run pick me MessageQueue.waiting None q
     = MessageQueue.Suspended MessageQueue.waiting None
         (MessageQueue.mk [] None (MessageQueue._condition q ++ [me])))
  ∧ (∀ l x, MessageQueue._messages q = l ++ [x] →
     MessageQueue.run pick me MessageQueue.receive None q
     = MessageQueue.Returned (Some x)
         (MessageQueue.mk l None (MessageQueue._condition q)))
  ∧ (∀ l x, me ∉ MessageQueue._condition q →
     MessageQueue._messages q = l ++ [x] →
     MessageQueue.run pick me MessageQueue.waiting None q
     = MessageQueue.Returned (Some x)
         (MessageQueue.mk l None (MessageQueue._condition q))).
Proof.
  destruct q as [msgs m w].
  cbn [MessageQueue._mutex MessageQueue._messages MessageQueue._condition].
  intros ->. repeat split.
  - intros ->. apply run_receive_parks.
  - intros Hin. by apply run_waiting_not_notified.
  - intros Hin ->. by apply run_waiting_parks.
  - intros l x ->. apply run_receive_takes.
  - intros l x Hin ->. by apply run_waiting_takes.
Qed.

Lemma receive_blocks_then_takes_last_witness :
  MessageQueue._mutex (MessageQueue.mk [red; green] None [7]) = None ∧
  MessageQueue.run 0 1 MessageQueue.receive None
    (MessageQueue.mk [red; green] None [7])
  = MessageQueue.Returned (Some green) (MessageQueue.mk [red] None [7]).
Proof.
  split; [reflexivity|].
  destruct (receive_blocks_then_takes_last 0 1
              (MessageQueue.mk [red; green] None [7]) eq_refl)
    as (_ & _ & _ & Hlast & _).
  exact (Hlast [red] green eq_refl).
Defined.

(** C2.  What [clear()] does in the source: it empties the container without
    acquiring the mutex.  The call completes in every state of the queue,
    also while another thread owns the mutex, and leaves the mutex as it
    was.  Two runs show it.  In the first the container holds [green], a
    thread in [waitForGreen] has locked the mutex inside [receive] and has
    moved the back element out, and the cycle thread then calls [clear()]:
    the container is emptied by a thread that does not own the mutex, and
    the [pop_back] of [receive] finds it empty, which is undefined.  In the
    second thread 2 calls [clear()] while thread 1 is inside [send(green)],
    after its [push_back]: [send] returns with nothing stored.  [send] and
    [receive], in contrast, keep every step on the container between the
    lock and its release, so that threads which call only these two never
    touch the container without owning the mutex, however they are
    interleaved. *)
Theorem clear_takes_no_lock :
  (∀ (T : Type) pick me (q : MessageQueue.t T),
     MessageQueue.run pick me MessageQueue.clear None q
     = MessageQueue.Returned None (MessageQueue.set_messages [] q))
  ∧ System.guarded (T:=TrafficLightPhase) false MessageQueue.clear = false
  ∧ (∀ v : TrafficLightPhase,
       System.guarded false (MessageQueue.send v) = true)
  ∧ System.guarded (T:=TrafficLightPhase) false MessageQueue.receive = true
  ∧ (∀ acts (s s' : System.t TrafficLightPhase),
       System.disciplined s → Forall System.locked (System.log s) →
       System.sched acts s = Some s' →
       Forall System.locked (System.log s'))
  ∧ (let s0 :=
       System.mk (MessageQueue.mk [green] None [])
         (<[1 := TrafficLight.waitForGreen]>
            (<[2 := System.call
                      (MessageQueue.clear ++ MessageQueue.send red)]> ∅)) [] in
     ∃ s1 th,
       System.sched
         [System.Step 1 0; System.Step 1 0; System.Step 1 0; System.Step 1 0;
          System.Step 2 0] s0
       = Some s1
       ∧ MessageQueue._mutex (System.queue s1) = Some 1
       ∧ MessageQueue._messages (System.queue s1) = []
       ∧ last (System.log s1)
         = Some (System.mkEntry 2 MessageQueue.clear_all (Some 1))
       ∧ ¬ Forall System.locked (System.log s1)
       ∧ System.pool s1 !! 1 = Some th
       ∧ System.code th = [MessageQueue.pop_back; MessageQueue.release]
       ∧ System.msg th = Some green
       ∧ MessageQueue.exec 0 1 MessageQueue.pop_back (System.msg th)
           (System.queue s1)
         = MessageQueue.Undefined
       ∧ System.step (System.Step 1 0) s1 = None)
  ∧ (let s0 :=
       System.mk (MessageQueue.mk [red] None [])
         (<[1 := System.call (MessageQueue.send green)]>
            (<[2 := System.call MessageQueue.clear]> ∅)) [] in
     ∃ s1 s2,
       System.sched [System.Step 1 0; System.Step 1 0; System.Step 2 0] s0
       = Some s1
       ∧ MessageQueue._mutex (System.queue s1) = Some 1
       ∧ MessageQueue._messages (System.queue s1) = []
       ∧ last (System.log s1)
         = Some (System.mkEntry 2 MessageQueue.clear_all (Some 1))
       ∧ System.sched [System.Step 1 0; System.Step 1 0] s1 = Some s2
       ∧ System.pool s2 !! 1 = Some (System.mkThread [] None None [])
       ∧ MessageQueue._messages (System.queue s2) = []).
Proof.
  split; [intros; apply run_clear|]. split; [done|].
  split; [done|]. split; [done|].
  split; [intros acts s s' Hd Hl Hs; by eapply sched_disciplined|]. split.
  - cbv zeta. eexists _, _.
    split; [vm_compute; reflexivity|].
    split; [reflexivity|]. split; [reflexivity|]. split; [reflexivity|].
    split.
    { cbn [System.log]. intros H.
      rewrite !Forall_cons in H. destruct H as (_ & _ & _ & _ & H & _).
      specialize (H eq_refl). discriminate H. }
    split; [vm_compute; reflexivity|].
    split; [reflexivity|]. split; [reflexivity|]. split; reflexivity.
  - cbv zeta. eexists _, _.
    split; [vm_compute; reflexivity|].
    split; [reflexivity|]. split; [reflexivity|]. split; [reflexivity|].
    split; [vm_compute; reflexivity|]. split; reflexivity.
Qed.

(** C3.  A thread runs [waitForGreen] on a queue shared with any other
    threads, under any schedule.  At every moment the values that its calls
    of [receive] have taken from the back of the container are the values it
    has tested, followed by the one it has just taken, if any.  They are
    reds, followed by at most one green, which is then the last: the thread
    takes nothing more from the queue once it has taken a green.  It has
    returned if and only if it has tested a green; as long as it has not
    returned and holds no untested value it is in a round of its loop, at or
    before the [move_back] of that round's call of [receive]; when it holds
    an untested value, all that is left of the round is [pop_back] and the
    release of the mutex, and the step after these returns if the value is
    green and starts the next round if it is red. *)
Theorem waitForGreen_returns_iff_green (acts : list System.action)
    (s s' : System.t TrafficLightPhase) (me : nat)
    (th : System.thread TrafficLightPhase) :
  System.pool s !! me = Some TrafficLight.waitForGreen →
  System.sched acts s = Some s' →
  System.pool s' !! me = Some th →
  System.moved me acts s = System.received th ++ System.pending th
  ∧ (∃ n, System.moved me acts s = replicate n red
          ∨ System.moved me acts s = replicate n red ++ [green])
  ∧ (System.finished th ↔ green ∈ System.received th)
  ∧ (∃ n, (¬ System.finished th ∧ System.received th = replicate n red)
          ∨ (System.finished th ∧
             System.received th = replicate n red ++ [green]))
  ∧ (¬ System.finished th → System.pending th = [] →
     TrafficLight.before_move (System.code th))
  ∧ (∀ x, System.pending th = [x] →
          System.msg th = Some x ∧ TrafficLight.after_move (System.code th))
  ∧ (∀ pick p,
       System.code th = [] → System.msg th = Some p → ¬ System.finished th →
       ∃ s'' th'',
         System.step (System.Step me pick) s' = Some s''
         ∧ System.pool s'' !! me = Some th''
         ∧ System.received th'' = System.received th ++ [p]
         ∧ System.moved me (acts ++ [System.Step me pick]) s
           = System.moved me acts s
         ∧ (p = green → System.finished th'')
         ∧ (p = red → System.code th'' = TrafficLight.waitForGreen_round
                      ∧ ¬ System.finished th'')).
Proof.
  intros Hme Hs Hth.
  destruct (sched_follows acts s s' me []) as (th0 & Hth0 & Hf);
    [|exact Hs|].
  { eexists. split; [exact Hme|]. exists 0. left.
    unfold TrafficLight.before_move. cbn. auto 10. }
  rewrite Hth in Hth0. injection Hth0 as <-. cbn [app] in Hf.
  assert (Hstep : ∀ pick p,
            System.code th = [] → System.msg th = Some p →
            ¬ System.finished th →
            System.loop th = System.loop TrafficLight.waitForGreen →
            ∃ s'' th'',
              System.step (System.Step me pick) s' = Some s''
              ∧ System.pool s'' !! me = Some th''
              ∧ System.received th'' = System.received th ++ [p]
              ∧ System.moved me (acts ++ [System.Step me pick]) s
                = System.moved me acts s
              ∧ (p = green → System.finished th'')
              ∧ (p = red → System.code th'' = TrafficLight.waitForGreen_round
                           ∧ ¬ System.finished th'')).
  { intros pick p Hc Hp _ Hl.
    assert (Hst : System.step (System.Step me pick) s'
              = Some (System.mk (System.queue s')
                        (<[me := if phase_eqb p green
                                 then System.mkThread [] (Some p) None
                                        (System.received th ++ [p])
                                 else System.mkThread
                                        TrafficLight.waitForGreen_round None
                                        (System.loop th)
                                        (System.received th ++ [p])]>
                           (System.pool s')) (System.log s'))).
    { unfold System.step. rewrite Hth. cbn [mbind option_bind].
      rewrite Hc, Hl, Hp. cbn [System.loop TrafficLight.waitForGreen].
      reflexivity. }
    eexists _, _. split; [exact Hst|]. cbn [System.pool].
    rewrite lookup_insert_eq. split; [reflexivity|].
    assert (Hmoved : System.moved me (acts ++ [System.Step me pick]) s
                     = System.moved me acts s).
    { rewrite (moved_app me acts _ s s' Hs). cbn [System.moved].
      rewrite (moves_self me pick s' th Hth), Hc, Hst.
      cbn [app]. by rewrite app_nil_r. }
    destruct p; cbn [phase_eqb System.received System.code System.loop].
    - split; [done|]. split; [done|]. split; [done|].
      intros _. split; [done|]. rewrite Hl. by intros [_ [=]].
    - split; [done|]. split; [done|]. split; [by intros _; split|done]. }
  destruct Hf as [n [(Hl & Hm & Hc & Hr & Ht)|[(x & Hl & Hm & Hc & Hr & Ht)|
                     (Hfin & Hr & Ht)]]].
  - assert (Hnf : ¬ System.finished th).
    { intros [_ Hnone]. rewrite Hnone in Hl. discriminate Hl. }
    assert (Hpend : System.pending th = []).
    { unfold System.pending. by rewrite Hm; destruct (System.loop th). }
    rewrite Hpend, app_nil_r.
    split; [done|]. split; [exists n; left; congruence|].
    split; [split; [done|]; rewrite Hr; by intros [[=] _]%elem_of_replicate|].
    split; [exists n; by left|]. split; [done|].
    split; [by intros x [=]|].
    intros pick p Hcode Hp Hnf'. congruence.
  - assert (Hnf : ¬ System.finished th).
    { intros [_ Hnone]. rewrite Hnone in Hl. discriminate Hl. }
    assert (Hpend : System.pending th = [x]).
    { unfold System.pending. by rewrite Hm, Hl. }
    rewrite Hpend.
    split; [done|]. split.
    { rewrite Ht, Hr. destruct x.
      - exists (S n). left. by rewrite replicate_snoc.
      - exists n. by right. }
    split; [split; [done|]; rewrite Hr; by intros [[=] _]%elem_of_replicate|].
    split; [exists n; by left|]. split; [done|].
    split; [intros y [= <-]; by split|].
    intros pick p Hcode Hp Hnf'. by apply Hstep.
  - assert (Hpend : System.pending th = []).
    { unfold System.pending. destruct Hfin as [_ ->]. done. }
    rewrite Hpend, app_nil_r.
    split; [done|]. split; [exists n; right; congruence|].
    split.
    { split; [intros _|done]. rewrite Hr. apply elem_of_app. right.
      by apply list_elem_of_singleton. }
    split; [exists n; by right|]. split; [done|].
    split; [by intros x [=]|].
    intros pick p _ _ Hnf. done.
Qed.

Lemma waitForGreen_returns_iff_green_witness :
  System.moved 1
    (replicate 4 (System.Step 0 0) ++ replicate 7 (System.Step 1 0)
     ++ replicate 4 (System.Step 0 0) ++ replicate 7 (System.Step 1 0))
    (System.mk MessageQueue.empty
       (<[0 := System.call (MessageQueue.send red ++ MessageQueue.send green)]>
          (<[1 := TrafficLight.waitForGreen]> ∅)) [])
  = [red; green]
  ∧ System.finished (System.mkThread [] (Some green) None [red; green]).
Proof.
  pose (producer := System.call
          (MessageQueue.send red ++ MessageQueue.send green)).
  pose (s0 := System.mk MessageQueue.empty
                (<[0 := producer]> (<[1 := TrafficLight.waitForGreen]> ∅)) []).
  pose (acts := replicate 4 (System.Step 0 0) ++ replicate 7 (System.Step 1 0)
                ++ replicate 4 (System.Step 0 0)
                ++ replicate 7 (System.Step 1 0)).
  pose (s1 := default s0 (System.sched acts s0)).
  pose (th1 := System.mkThread (T:=TrafficLightPhase) [] (Some green) None
                 [red; green]).
  assert (H0 : System.pool s0 !! 1 = Some TrafficLight.waitForGreen)
    by reflexivity.
  assert (H1 : System.sched acts s0 = Some s1) by (vm_compute; reflexivity).
  assert (H2 : System.pool s1 !! 1 = Some th1) by (vm_compute; reflexivity).
  clearbody s1.
  destruct (waitForGreen_returns_iff_green acts s0 s1 1 th1 H0 H1 H2)
    as (Hmoved & _ & Hfin & _).
  split; [exact Hmoved|]. apply Hfin.
  apply elem_of_cons. right. apply list_elem_of_singleton. reflexivity.
Defined.

(** C4.  A controller is constructed in phase red.  One round of the cycle
    leaves the phase as it is when the duration has not elapsed, and
    otherwise replaces red by green and green by red.  Hence, whatever the
    clock readings, the durations drawn and the calls that other threads
    make on the queue between the rounds, the cycle started on a newly
    constructed controller completes each of its rounds, and the phases the
    controller goes through, the initial one followed by the one after each
    toggle, are red, green, red, green, ...: no two consecutive ones are
    equal, and the last is the current phase. *)
Theorem phases_alternate {engine : Type}
    (uniform_int_distribution : Z → Z → engine → Z * engine)
    (ticks_per_second : Z) (self async id : nat) (seed : engine) (now0 : Z)
    (ticks : list TrafficLight.tick) :
  TrafficLight._currentPhase (TrafficLight.TrafficLight id) = red
  ∧ (∀ i p l parked e d t0 out tr,
       ∃ w',
         TrafficLight.iteration engine uniform_int_distribution
           ticks_per_second self async i
           (TrafficLight.mkCycle
              (TrafficLight.mk p (MessageQueue.mk l None parked) id)
              e d t0 out tr)
         = TrafficLight.Ok (tt, w')
         ∧ TrafficLight._currentPhase (TrafficLight.this w')
           = (if (d <=? (TrafficLight.now i - t0) `quot` ticks_per_second)%Z
              then match p with red => green | green => red end
              else p))
  ∧ ∃ w,
      TrafficLight.cycleThroughPhases engine uniform_int_distribution
        ticks_per_second self async seed now0 ticks
        (TrafficLight.TrafficLight id)
      = TrafficLight.Ok w
      ∧ (∀ k p,
           (red :: TrafficLight.toggles (TrafficLight.trace w)) !! k = Some p →
           p = if Nat.even k then red else green)
      ∧ (∀ k p p',
           (red :: TrafficLight.toggles (TrafficLight.trace w)) !! k = Some p →
           (red :: TrafficLight.toggles (TrafficLight.trace w)) !! S k
           = Some p' →
           p ≠ p')
      ∧ last (red :: TrafficLight.toggles (TrafficLight.trace w))
        = Some (TrafficLight._currentPhase (TrafficLight.this w)).
Proof.
  split; [done|]. split.
  - intros i p l parked e d t0 out tr.
    destruct (Z.leb_spec d ((TrafficLight.now i - t0) `quot` ticks_per_second))
      as [Hle|Hgt].
    + eexists. split; [by apply iteration_toggles|]. by destruct p.
    + eexists. split; [by apply iteration_idles|]. done.
  - destruct (rounds_invariant uniform_int_distribution ticks_per_second
                self async TrafficLight.alternates
                (iteration_alternates uniform_int_distribution
                   ticks_per_second self async)
                ticks
                (TrafficLight.enter engine uniform_int_distribution seed now0
                   (TrafficLight.TrafficLight id)))
      as (w & Hw & _ & Hlast & Halt); [done|by split; [|intros [|[|k]] p [=]]|].
    exists w. unfold TrafficLight.cycleThroughPhases. rewrite Hw.
    split; [done|]. split; [exact Halt|]. split; [|exact Hlast].
    intros k p p' Hp Hp'. apply Halt in Hp, Hp'. subst.
    rewrite Nat.even_succ, <- Nat.negb_even. by destruct (Nat.even k).
Qed.



(** C6.  On a queue on which no other thread is active, after
    [send(red); clear(); send(green)] the container holds [green] alone, and
    a call of [receive] returns [green] (hence not [red]) and leaves the
    container empty. *)
Theorem send_clear_send_then_receive_green (pick sender receiver : nat)
    (old : list TrafficLightPhase) :
  ∃ q,
    MessageQueue.run pick sender
      (MessageQueue.send red ++ MessageQueue.clear ++ MessageQueue.send green)
      None (MessageQueue.mk old None [])
    = MessageQueue.Returned None q
    ∧ MessageQueue._messages q = [green]
    ∧ MessageQueue.run pick receiver MessageQueue.receive None q
      = MessageQueue.Returned (Some green) MessageQueue.empty
    ∧ ∀ q', MessageQueue.run pick receiver MessageQueue.receive None q
            ≠ MessageQueue.Returned (Some red) q'.
Proof.
  exists (MessageQueue.mk [green] None []).
  assert (Hrecv : MessageQueue.run pick receiver MessageQueue.receive None
                    (MessageQueue.mk [green] None [])
                  = MessageQueue.Returned (Some green) MessageQueue.empty)
    by apply (run_receive_takes pick receiver [] green []).
  split; [|split; [done|split; [done|by rewrite Hrecv]]].
  rewrite (run_app _ _ _ _ _ _ _ _ (run_send pick sender red old [])).
  rewrite (run_app _ _ _ _ _ _ _ _ (run_clear pick sender _)).
  unfold MessageQueue.set_messages.
  cbn [MessageQueue._mutex MessageQueue._condition delete list_delete].
  apply (run_send pick sender green [] []).
Qed.

(** C7.  [receive] hands out no value that was not sent.  With an empty
    container the call does not return: the caller parks.  After [clear()]
    the same holds whatever the container held before: the caller parks;
    while it has not been woken it stays parked; woken without a new
    [send] it parks again; and once a thread has called [send(v)] the woken
    caller returns [v].  In every interleaving of threads on a queue that
    starts empty, the elements taken out by [pop_back] are at most as many
    as those put in by [push_back]. *)
Theorem receive_waits_for_send {T : Type} (pick me other : nat)
    (old : list T) (w : list nat) (v : T) :
  me ∉ w →
  MessageQueue.run (T:=T) pick me MessageQueue.receive None
    (MessageQueue.mk [] None w)
  = MessageQueue.Suspended MessageQueue.waiting None
      (MessageQueue.mk [] None (w ++ [me]))
  ∧ (∃ cleared parked,
       MessageQueue.run pick other MessageQueue.clear None
         (MessageQueue.mk old None w)
       = MessageQueue.Returned None cleared
       ∧ MessageQueue.run pick me MessageQueue.receive None cleared
         = MessageQueue.Suspended MessageQueue.waiting None parked
       ∧ MessageQueue._messages parked = []
       ∧ me ∈ MessageQueue._condition parked
       ∧ MessageQueue.run pick me MessageQueue.waiting None parked
         = MessageQueue.Suspended MessageQueue.waiting None parked
       ∧ MessageQueue.run pick me MessageQueue.waiting None
           (MessageQueue.spurious_wakeup me parked)
         = MessageQueue.Suspended MessageQueue.waiting None parked
       ∧ ∃ sent,
           MessageQueue.run pick other (MessageQueue.send v) None parked
           = MessageQueue.Returned None sent
           ∧ MessageQueue.run pick me MessageQueue.waiting None
               (MessageQueue.spurious_wakeup me sent)
             = MessageQueue.Returned (Some v)
                 (MessageQueue.set_messages []
                    (MessageQueue.spurious_wakeup me sent)))
  ∧ (∀ acts (s s' : System.t T),
       MessageQueue._messages (System.queue s) = [] → System.log s = [] →
       System.sched acts s = Some s' →
       length (MessageQueue._messages (System.queue s'))
       + System.pops (System.log s')
       ≤ System.pushes (System.log s')).
Proof.
  intros Hme.
  pose proof (filter_ne_parked me w Hme) as Hfilter.
  split; [apply run_receive_parks|]. split.
  - exists (MessageQueue.mk [] None w), (MessageQueue.mk [] None (w ++ [me])).
    split; [done|]. split; [apply run_receive_parks|].
    split; [done|]. split; [set_solver|].
    split; [apply run_waiting_not_notified; set_solver|].
    split.
    { unfold MessageQueue.spurious_wakeup, MessageQueue.set_condition.
      cbn [MessageQueue._messages MessageQueue._mutex MessageQueue._condition].
      rewrite Hfilter. by apply run_waiting_parks. }
    eexists. split; [apply run_send|].
    unfold MessageQueue.spurious_wakeup, MessageQueue.set_condition,
      MessageQueue.set_messages.
    cbn [MessageQueue._messages MessageQueue._mutex MessageQueue._condition].
    apply (run_waiting_takes pick me [] v).
    by intros [Hne _]%list_elem_of_filter.
  - intros acts s s' Hq Hl Hs.
    pose proof (sched_balanced 0 acts s s') as Hb. unfold System.balanced in Hb.
    rewrite Hq, Hl in Hb. apply Hb; [done|exact Hs].
Qed.

Lemma receive_waits_for_send_witness :
  (1 ∉ ([] : list nat)) ∧
  MessageQueue.run 0 1 MessageQueue.receive None
    (MessageQueue.mk ([] : list TrafficLightPhase) None [])
  = MessageQueue.Suspended MessageQueue.waiting None
      (MessageQueue.mk [] None [1]).
Proof.
  assert (H : 1 ∉ ([] : list nat)) by (apply not_elem_of_nil).
  split; [exact H|].
  exact (proj1 (receive_waits_for_send 0 1 2 [red] [] green H)).
Defined.

(** C8.  Whatever the container holds, a call of [send(v)] that finds the
    mutex free returns with [v] added at the back: the container is one
    element longer and every element stored before is where it was.  The
    element is in place, with all parked threads still parked, before
    [notify_one] runs; [notify_one] then takes exactly one thread off the
    condition variable when some thread is parked there (the others stay),
    and none when there is none. *)
Theorem send_appends_and_wakes_one {T : Type} (pick me : nat) (v : T)
    (q : MessageQueue.t T) :
  MessageQueue._mutex q = None →
  ∃ q',
    MessageQueue.run pick me (MessageQueue.send v) None q
    = MessageQueue.Returned None q'
    ∧ MessageQueue._messages q' = MessageQueue._messages q ++ [v]
    ∧ length (MessageQueue._messages q')
      = S (length (MessageQueue._messages q))
    ∧ (∀ k x, MessageQueue._messages q !! k = Some x →
              MessageQueue._messages q' !! k = Some x)
    ∧ MessageQueue._mutex q' = None
    ∧ MessageQueue.send v
      = [MessageQueue.unique_lock; MessageQueue.push_back v]
        ++ [MessageQueue.notify_one; MessageQueue.release]
    ∧ MessageQueue.run pick me
        [MessageQueue.unique_lock; MessageQueue.push_back v] None q
      = MessageQueue.Returned None
          (MessageQueue.mk (MessageQueue._messages q ++ [v]) (Some me)
             (MessageQueue._condition q))
    ∧ match MessageQueue.woken pick q with
      | Some t =>
          t ∈ MessageQueue._condition q ∧
          MessageQueue._condition q ≡ₚ t :: MessageQueue._condition q'
      | None =>
          MessageQueue._condition q = [] ∧ MessageQueue._condition q' = []
      end.
Proof.
  destruct q as [l m w].
  cbn [MessageQueue._mutex MessageQueue._messages MessageQueue._condition].
  intros ->. eexists. split; [apply run_send|].
  cbn [MessageQueue._mutex MessageQueue._messages MessageQueue._condition].
  split; [done|]. split; [rewrite length_app; cbn; lia|].
  split; [intros k x Hk; by apply lookup_app_l_Some|].
  split; [done|]. split; [done|]. split; [done|].
  unfold MessageQueue.woken. cbn [MessageQueue._condition].
  destruct (w !! (pick `mod` length w)) as [t|] eqn:Ht.
  - split; [by eapply list_elem_of_lookup_2|by apply delete_Permutation].
  - apply lookup_ge_None in Ht. destruct w as [|t w]; [done|].
    pose proof (Nat.mod_upper_bound pick (length (t :: w))) as Hlt.
    cbn [length] in *. lia.
Qed.

Lemma send_appends_and_wakes_one_witness :
  MessageQueue._mutex (MessageQueue.mk [red] None [4; 5]) = None ∧
  ∃ q',
    MessageQueue.run 1 0 (MessageQueue.send green) None
      (MessageQueue.mk [red] None [4; 5])
    = MessageQueue.Returned None q'
    ∧ MessageQueue._messages q' = [red; green].
Proof.
  split; [reflexivity|].
  destruct (send_appends_and_wakes_one 1 0 green
              (MessageQueue.mk [red] None [4; 5]) eq_refl)
    as (q' & Hrun & Hmsgs & _).
  exists q'. split; [exact Hrun|exact Hmsgs].
Defined.

(** C9.  Every duration that the cycle uses comes from
    [secondsList], the distribution constructed with the bounds 5 and 8:
    one is drawn when the cycle is entered and one after each toggle, the
    duration in use is always the one drawn last, and, a distribution
    yielding values within its bounds, every one of them lies between 5 and
    8 inclusive. *)
Theorem durations_between_5_and_8 {engine : Type}
    (uniform_int_distribution : Z → Z → engine → Z * engine)
    (ticks_per_second : Z) (self async id : nat) (seed : engine) (now0 : Z)
    (ticks : list TrafficLight.tick) :
  (∀ a b e, (a ≤ b)%Z → (a ≤ (uniform_int_distribution a b e).1 ≤ b)%Z) →
  TrafficLight.secondsList engine uniform_int_distribution
  = uniform_int_distribution 5%Z 8%Z
  ∧ ∃ w,
      TrafficLight.cycleThroughPhases engine uniform_int_distribution
        ticks_per_second self async seed now0 ticks
        (TrafficLight.TrafficLight id)
      = TrafficLight.Ok w
      ∧ (5 ≤ TrafficLight.cycleDuration w ≤ 8)%Z
      ∧ Forall (λ d, 5 ≤ d ≤ 8)%Z (TrafficLight.draws (TrafficLight.trace w))
      ∧ last (TrafficLight.draws (TrafficLight.trace w))
        = Some (TrafficLight.cycleDuration w)
      ∧ length (TrafficLight.draws (TrafficLight.trace w))
        = S (length (TrafficLight.toggles (TrafficLight.trace w))).
Proof.
  intros Hrange. split; [done|].
  destruct (rounds_invariant uniform_int_distribution ticks_per_second
              self async TrafficLight.durations_ok
              (λ i w w', iteration_durations uniform_int_distribution
                           ticks_per_second self async i w w' Hrange)
              ticks
              (TrafficLight.enter engine uniform_int_distribution seed now0
                 (TrafficLight.TrafficLight id)))
    as (w & Hw & _ & Hok); [done| |].
  - assert (Hin : (5 ≤ (uniform_int_distribution 5 8 seed).1 ≤ 8)%Z)
      by (apply Hrange; lia).
    repeat split; cbn; try apply Hin. by apply Forall_singleton.
  - exists w. unfold TrafficLight.cycleThroughPhases. rewrite Hw.
    split; [done|]. exact Hok.
Qed.

Lemma durations_between_5_and_8_witness :
  (∀ a b e : Z, (a ≤ b)%Z → (a ≤ (a + e `mod` (b - a + 1), e + 1).1 ≤ b)%Z)
  ∧ ∃ w,
      TrafficLight.cycleThroughPhases Z
        (λ a b e, (a + e `mod` (b - a + 1), e + 1))%Z 1000000000 0 1 10%Z 0
        [TrafficLight.mkTick 9000000000 9000000500 0 (λ r, r);
         TrafficLight.mkTick 9000010000 9000010500 0
           (λ r, (removelast r.1, r.2))]
        (TrafficLight.TrafficLight 3)
      = TrafficLight.Ok w
      ∧ (5 ≤ TrafficLight.cycleDuration w ≤ 8)%Z.
Proof.
  assert (H : ∀ a b e : Z,
             (a ≤ b)%Z → (a ≤ (a + e `mod` (b - a + 1), e + 1).1 ≤ b)%Z).
  { intros a b e Hab. cbn [fst].
    pose proof (Z.mod_pos_bound e (b - a + 1)). lia. }
  split; [exact H|].
  destruct (durations_between_5_and_8
              (λ a b e, (a + e `mod` (b - a + 1), e + 1))%Z 1000000000 0 1 3
              10%Z 0
              [TrafficLight.mkTick 9000000000 9000000500 0 (λ r, r);
               TrafficLight.mkTick 9000010000 9000010500 0
           (λ r, (removelast r.1, r.2))] H)
    as (_ & w & Hrun & Hd & _).
  exists w. split; [exact Hrun|exact Hd].
Defined.

(** C10.  [getCurrentPhase] returns the current phase and changes nothing:
    the controller after the call is the controller before it, with the same
    phase and the same message queue. *)
Theorem getCurrentPhase_changes_nothing (this : TrafficLight.t) :
  (TrafficLight.getCurrentPhase this).1 = TrafficLight._currentPhase this
  ∧ (TrafficLight.getCurrentPhase this).2 = this
  ∧ TrafficLight._currentPhase (TrafficLight.getCurrentPhase this).2
    = TrafficLight._currentPhase this
  ∧ MessageQueue._messages
      (TrafficLight._msgQueue (TrafficLight.getCurrentPhase this).2)
    = MessageQueue._messages (TrafficLight._msgQueue this).
Proof. done. Qed.

(** * Further properties of the queue *)

Section QueueMore.
Context {T : Type}.
Implicit Types (q : MessageQueue.t T) (me pick : nat) (v x : T)
  (l vs : list T) (w : list nat).

Import MessageQueue.

Lemma run_sends pick me vs l :
  run pick me (concat (map send vs)) None (mk l None [])
  = Returned None (mk (l ++ vs) None []).
Proof.
  revert l. induction vs as [|v vs IH]; intros l.
  - by rewrite app_nil_r.
  - cbn [map concat].
    rewrite (run_app _ _ _ _ _ _ _ _ (run_send pick me v l [])).
    cbn [delete list_delete length]. rewrite IH.
    by rewrite <- app_assoc.
Qed.

Lemma drain_all pick me vs l w :
  drain pick me (length vs) (mk (l ++ vs) None w)
  = Some (reverse vs, mk l None w).
Proof.
  induction vs as [|x vs IH] using rev_ind.
  - by rewrite app_nil_r.
  - rewrite length_app, Nat.add_1_r, app_assoc, reverse_snoc.
    cbn [drain]. rewrite run_receive_takes. by rewrite IH.
Qed.

Lemma drain_too_many pick me n l w :
  length l < n → drain pick me n (mk l None w) = None.
Proof.
  revert l. induction n as [|n IH]; intros l Hn; [lia|].
  cbn [drain]. destruct l as [|x l] using rev_ind.
  - by rewrite run_receive_parks.
  - rewrite run_receive_takes. rewrite IH; [done|].
    rewrite length_app in Hn. cbn in Hn. lia.
Qed.

Lemma NoDup_delete_lookup w k t :
  NoDup w → w !! k = Some t → t ∉ delete k w.
Proof.
  intros Hnd Hk. apply delete_Permutation in Hk.
  rewrite Hk in Hnd. by apply NoDup_cons in Hnd as [? _].
Qed.
End QueueMore.

(** X1.  The queue is a stack.  A thread that sends the values [vs] one
    after the other to a queue that nobody else uses adds them at the back
    in this order; [receive] called as many times then returns them in the
    reverse order, the one sent last first, and leaves what the container
    held before; one more call than there are elements does not return. *)
Theorem sends_are_received_in_reverse {T : Type} (pick sender receiver : nat)
    (l vs : list T) (w : list nat) :
  MessageQueue.run pick sender (concat (map MessageQueue.send vs)) None
    (MessageQueue.mk l None [])
  = MessageQueue.Returned None (MessageQueue.mk (l ++ vs) None [])
  ∧ MessageQueue.drain pick receiver (length vs)
      (MessageQueue.mk (l ++ vs) None w)
    = Some (reverse vs, MessageQueue.mk l None w)
  ∧ MessageQueue.drain pick receiver (S (length (l ++ vs)))
      (MessageQueue.mk (l ++ vs) None w)
    = None.
Proof.
  split; [apply run_sends|]. split; [apply drain_all|].
  apply drain_too_many. lia.
Qed.

(** X2.  One [send] serves one receiver.  When threads are parked in
    [receive] on an empty container (each of them once) and a thread calls
    [send(v)], the thread that [notify_one] wakes returns [v] and leaves the
    container empty.  Each of the other parked threads stays parked as long
    as it is not woken, and parks again when it wakes up after the value has
    been taken. *)
Theorem notify_serves_one_receiver {T : Type} (pick pick' sender t : nat)
    (v : T) (w : list nat) :
  NoDup w →
  MessageQueue.woken pick (MessageQueue.mk ([] : list T) None w) = Some t →
  ∃ rest,
    MessageQueue.run pick sender (MessageQueue.send v) None
      (MessageQueue.mk [] None w)
    = MessageQueue.Returned None (MessageQueue.mk [v] None rest)
    ∧ w ≡ₚ t :: rest
    ∧ MessageQueue.run pick' t MessageQueue.waiting None
        (MessageQueue.mk [v] None rest)
      = MessageQueue.Returned (Some v) (MessageQueue.mk [] None rest)
    ∧ ∀ t', t' ∈ rest →
        t' ≠ t
        ∧ MessageQueue.run pick' t' MessageQueue.waiting None
            (MessageQueue.mk [v] None rest)
          = MessageQueue.Suspended MessageQueue.waiting None
              (MessageQueue.mk [v] None rest)
        ∧ ∃ rest',
            MessageQueue.run pick' t' MessageQueue.waiting None
              (MessageQueue.spurious_wakeup t'
                 (MessageQueue.mk ([] : list T) None rest))
            = MessageQueue.Suspended MessageQueue.waiting None
                (MessageQueue.mk [] None (rest' ++ [t']))
            ∧ t' ∉ rest'.
Proof.
  unfold MessageQueue.woken. cbn [MessageQueue._condition].
  intros Hnd Hk. exists (delete (pick `mod` length w) w).
  pose proof (NoDup_delete_lookup _ _ _ Hnd Hk) as Hnotin.
  split; [apply (run_send pick sender v [] w)|].
  split; [by apply delete_Permutation|].
  split; [by apply (run_waiting_takes pick' t [] v)|].
  intros t' Hin. split; [by intros ->|].
  split; [by apply run_waiting_not_notified|].
  exists (filter (λ u, u ≠ t') (delete (pick `mod` length w) w)).
  split.
  - unfold MessageQueue.spurious_wakeup, MessageQueue.set_condition.
    cbn [MessageQueue._messages MessageQueue._mutex MessageQueue._condition].
    apply run_waiting_parks. by intros [? _]%list_elem_of_filter.
  - by intros [? _]%list_elem_of_filter.
Qed.

Lemma notify_serves_one_receiver_witness :
  NoDup [4; 5; 6] ∧
  ∃ rest,
    MessageQueue.run 1 9 (MessageQueue.send green) None
      (MessageQueue.mk [] None [4; 5; 6])
    = MessageQueue.Returned None (MessageQueue.mk [green] None rest)
    ∧ [4; 5; 6] ≡ₚ 5 :: rest.
Proof.
  assert (Hnd : NoDup [4; 5; 6]) 
    by (apply (bool_decide_unpack (NoDup [4; 5; 6])); vm_compute; exact I).
  split; [exact Hnd|].
  destruct (notify_serves_one_receiver 1 0 9 5 green [4; 5; 6] Hnd eq_refl)
    as (rest & Hrun & Hperm & _).
  exists rest. split; [exact Hrun|exact Hperm].
Defined.

(** * Further properties of interleaved threads *)

Section SchedMore.
Context {T : Type}.
Implicit Types (s : System.t T) (th : System.thread T)
  (q : MessageQueue.t T) (i : MessageQueue.instr T) (me pick : nat).

Import MessageQueue System.

Lemma guarded_app held (c1 c2 : list (instr T)) :
  guarded held c1 = true → guarded held (c1 ++ c2) = guarded false c2.
Proof.
  revert held. induction c1 as [|i c1 IH]; intros held.
  - cbn. by intros ->%negb_true_iff.
  - destruct i, held; cbn [guarded app andb negb]; try done; apply IH.
Qed.

Lemma guarded_calls (calls : list (list (instr T))) :
  Forall (λ c, c = receive ∨ ∃ v, c = send v) calls →
  guarded false (concat calls) = true.
Proof.
  induction 1 as [|c calls Hc _ IH]; [done|].
  cbn [concat]. rewrite guarded_app; [done|].
  by destruct Hc as [->|[v ->]].
Qed.

Lemma guarded_touch held i (c : list (instr T)) :
  touches i = true → guarded held (i :: c) = true → held = true.
Proof. by destruct i, held. Qed.

(** *** Where the values come from *)

Lemma pushed_snoc (l : list (entry T)) e :
  pushed (l ++ [e])
  = pushed l ++ match what e with push_back v => [v] | _ => [] end.
Proof. unfold pushed. rewrite omap_app. cbn. by destruct (what e). Qed.

Lemma elem_of_removelast (l : list T) x : x ∈ removelast l → x ∈ l.
Proof.
  destruct l as [|y l] using rev_ind; [done|].
  rewrite removelast_last. intros Hx. apply elem_of_app. by left.
Qed.

Lemma exec_provenance pick me i (m : option T) q q' m' :
  exec pick me i m q = Done q' m' →
  (∀ x, x ∈ _messages q' → x ∈ _messages q ∨ i = push_back x)
  ∧ (∀ v, m' = Some v → m = Some v ∨ v ∈ _messages q).
Proof.
  intros H. split.
  - intros x Hx. destruct i.
    5:{ cbn [exec] in H. destruct (_messages q) as [|y l] eqn:E; [done|].
        inversion H; subst q' m'. unfold set_messages in Hx.
        cbn [_messages] in Hx. left. by apply elem_of_removelast. }
    all: cbn [exec] in H; unfold acquire in H;
      repeat case_decide; repeat case_match; simplify_eq;
      unfold set_messages, set_mutex, set_condition in Hx;
      cbn [_messages] in Hx;
      repeat match goal with
             | E : _messages _ = _ :: _ |- _ => rewrite <- E in *; clear E
             end;
      try by left.
    + apply elem_of_app in Hx as [Hx|Hx]; [by left|].
      apply list_elem_of_singleton in Hx as ->. by right.
    + by apply elem_of_nil in Hx.
  - intros v' ->.
    destruct i; cbn [exec] in H; unfold acquire in H;
      repeat case_decide; repeat case_match; simplify_eq;
      repeat match goal with
             | E : _messages _ = _ :: _ |- _ => rewrite <- E in *; clear E
             end;
      try by left.
    right. by eapply last_Some_elem_of.
Qed.


Lemma step_traced init a s s' :
  traced init s → step a s = Some s' → traced init s'.
Proof.
  intros [Hq Hp]. destruct a as [me pick|me].
  2:{ intros [= <-]. split; [exact Hq|exact Hp]. }
  intros (th & Hth & [H|[H|H]])%step_inv.
  - destruct H as (i & rest & q' & m' & Hc & He & ->).
    destruct (exec_provenance _ _ _ _ _ _ _ He) as [Hmsgs Hmsg].
    assert (Hmono : ∀ x, x ∈ init ∨ x ∈ pushed (log s) →
              x ∈ init ∨ x ∈ pushed (log s ++ [mkEntry me i (_mutex (queue s))])).
    { intros x [?|?]; [by left|right]. rewrite pushed_snoc.
      apply elem_of_app. by left. }
    split; cbn [queue pool log].
    + intros x Hx. destruct (Hmsgs x Hx) as [Hold| ->]; [by apply Hmono, Hq|].
      right. rewrite pushed_snoc. cbn [what].
      apply elem_of_app. right. by apply list_elem_of_singleton.
    + intros t th' v. destruct (decide (t = me)) as [->|Hne].
      * rewrite lookup_insert_eq. intros [= <-]. cbn [msg received].
        intros [Hv|Hv]; apply Hmono.
        -- destruct (Hmsg v Hv) as [Hm|Hin]; [by eapply Hp; eauto|by apply Hq].
        -- eapply Hp; eauto.
      * rewrite lookup_insert_ne by done. intros Ht Hv.
        apply Hmono. by eapply Hp.
  - destruct H as (i & rest & q' & Hc & He & ->).
    apply exec_park in He as (-> & _ & Hempty & ->).
    assert (Hmono : ∀ x, x ∈ init ∨ x ∈ pushed (log s) →
              x ∈ init ∨ x ∈ pushed (log s ++ [mkEntry me cv_wait (_mutex (queue s))])).
    { intros x Hx. by rewrite pushed_snoc, app_nil_r. }
    split; cbn [queue pool log _messages].
    + intros x Hx. by apply elem_of_nil in Hx.
    + intros t th' v. destruct (decide (t = me)) as [->|Hne].
      * rewrite lookup_insert_eq. intros [= <-]. cbn [msg received].
        intros Hv. apply Hmono. by eapply Hp.
      * rewrite lookup_insert_ne by done. intros Ht Hv.
        apply Hmono. by eapply Hp.
  - destruct H as (body & stop & v0 & Hc & Hlp & Hv0 & ->).
    split; cbn [queue pool log]; [exact Hq|].
    intros t th' v. destruct (decide (t = me)) as [->|Hne].
    + rewrite lookup_insert_eq. intros [= <-].
      assert (Hv0' : v0 ∈ init ∨ v0 ∈ pushed (log s)) by (eapply Hp; eauto).
      destruct (stop v0); cbn [msg received].
      * intros [[= <-]|[Hv|Hv]%elem_of_app]; [done|by eapply Hp; eauto|].
        by apply list_elem_of_singleton in Hv as ->.
      * intros [[=]|[Hv|Hv]%elem_of_app]; [by eapply Hp; eauto|].
        by apply list_elem_of_singleton in Hv as ->.
    + rewrite lookup_insert_ne by done. apply Hp.
Qed.

Lemma sched_traced init acts s s' :
  traced init s → sched acts s = Some s' → traced init s'.
Proof. apply sched_ind. intros a s1 s2. apply step_traced. Qed.
End SchedMore.

(** X3.  Without [clear] there is no race on the container.  In a system
    whose threads run [waitForGreen] or call [send] and [receive] any number
    of times, started with the mutex free, every step that reads or writes
    the container is made by the thread that owns the mutex, under every
    schedule; and no two threads are ever both about to touch the
    container. *)
Theorem send_receive_never_race (acts : list System.action)
    (s s' : System.t TrafficLightPhase) :
  MessageQueue._mutex (System.queue s) = None →
  System.log s = [] →
  (∀ me th, System.pool s !! me = Some th →
     th = TrafficLight.waitForGreen
     ∨ ∃ calls,
         th = System.call (concat calls)
         ∧ Forall (λ c, c = MessageQueue.receive
                        ∨ ∃ v, c = MessageQueue.send v) calls) →
  System.sched acts s = Some s' →
  Forall System.locked (System.log s')
  ∧ ∀ t1 t2 th1 th2 i1 i2 r1 r2,
      System.pool s' !! t1 = Some th1 → System.pool s' !! t2 = Some th2 →
      System.code th1 = i1 :: r1 → System.code th2 = i2 :: r2 →
      System.touches i1 = true → System.touches i2 = true →
      t1 = t2.
Proof.
  intros Hm Hl Hpool Hs.
  assert (Hd : System.disciplined s).
  { intros me th Hth. destruct (Hpool me th Hth) as [->|(calls & -> & Hc)].
    - split.
      + exists false. split; [done|]. by rewrite Hm.
      + by intros body stop [= <- <-].
    - split; [|done]. exists false. split; [by apply guarded_calls|].
      by rewrite Hm. }
  destruct (sched_disciplined acts s s' Hd) as [Hd' Hl']; [by rewrite Hl|done|].
  split; [exact Hl'|].
  intros t1 t2 th1 th2 i1 i2 r1 r2 H1 H2 Hc1 Hc2 Ht1 Ht2.
  destruct (Hd' t1 th1 H1) as [(h1 & Hg1 & Hh1) _].
  destruct (Hd' t2 th2 H2) as [(h2 & Hg2 & Hh2) _].
  rewrite Hc1 in Hg1. rewrite Hc2 in Hg2.
  apply guarded_touch in Hg1; [|done]. apply guarded_touch in Hg2; [|done].
  apply Hh1 in Hg1. apply Hh2 in Hg2. congruence.
Qed.

Lemma send_receive_never_race_witness :
  ∃ s',
    System.sched
      [System.Step 0 0; System.Step 1 0; System.Step 0 0; System.Step 0 0]
      (System.mk MessageQueue.empty
         (<[0 := System.call (concat [MessageQueue.send red;
                                      MessageQueue.send green])]>
            (<[1 := TrafficLight.waitForGreen]> ∅)) [])
    = Some s'
    ∧ Forall System.locked (System.log s').
Proof.
  pose (s0 := System.mk (T:=TrafficLightPhase) MessageQueue.empty
                (<[0 := System.call (concat [MessageQueue.send red;
                                             MessageQueue.send green])]>
                   (<[1 := TrafficLight.waitForGreen]> ∅)) []).
  pose (acts := [System.Step 0 0; System.Step 1 0; System.Step 0 0;
                 System.Step 0 0]).
  pose (s1 := default s0 (System.sched acts s0)).
  assert (Hrun : System.sched acts s0 = Some s1) by (vm_compute; reflexivity).
  clearbody s1.
  assert (Hpool : ∀ me th, System.pool s0 !! me = Some th →
            th = TrafficLight.waitForGreen
            ∨ ∃ calls,
                th = System.call (concat calls)
                ∧ Forall (λ c, c = MessageQueue.receive
                               ∨ ∃ v, c = MessageQueue.send v) calls).
  { intros me th. cbn [System.pool s0].
    destruct (decide (me = 0)) as [->|H0].
    - rewrite lookup_insert_eq. intros [= <-]. right.
      exists [MessageQueue.send red; MessageQueue.send green].
      split; [reflexivity|].
      apply Forall_cons; split; [right; by exists red|].
      apply Forall_cons; split; [right; by exists green|]. apply Forall_nil_2.
    - rewrite lookup_insert_ne by (intros E; exact (H0 (eq_sym E))).
      destruct (decide (me = 1)) as [->|H1].
      + rewrite lookup_insert_eq. intros [= <-]. left. reflexivity.
      + rewrite lookup_insert_ne by (intros E; exact (H1 (eq_sym E))). rewrite lookup_empty.
        intros [=]. }
  exists s1. split; [exact Hrun|].
  exact (proj1 (send_receive_never_race acts s0 s1 eq_refl eq_refl Hpool Hrun)).
Defined.

(** X4.  No value comes out of the queue that was not put in.  Under every
    schedule, every element stored in the container, every value that a call
    of [receive] has taken into [msg], and every value that a loop has
    tested, was in the container at the start or was the argument of a
    [push_back] made since. *)
Theorem received_values_were_sent {T : Type} (acts : list System.action)
    (s s' : System.t T) :
  System.log s = [] →
  (∀ me th, System.pool s !! me = Some th →
     System.msg th = None ∧ System.received th = []) →
  System.sched acts s = Some s' →
  (∀ x, x ∈ MessageQueue._messages (System.queue s') →
        x ∈ MessageQueue._messages (System.queue s)
        ∨ x ∈ System.pushed (System.log s'))
  ∧ ∀ me th v, System.pool s' !! me = Some th →
      System.msg th = Some v ∨ v ∈ System.received th →
      v ∈ MessageQueue._messages (System.queue s)
      ∨ v ∈ System.pushed (System.log s').
Proof.
  intros Hl Hfresh Hs.
  apply (sched_traced (MessageQueue._messages (System.queue s)) acts s s');
    [|done].
  split; [by left|].
  intros me th v Hth [Hv|Hv]; destruct (Hfresh me th Hth) as [Hm Hr].
  - congruence.
  - rewrite Hr in Hv. by apply elem_of_nil in Hv.
Qed.

Lemma received_values_were_sent_witness :
  ∃ s',
    System.sched (replicate 4 (System.Step 0 0) ++ replicate 5 (System.Step 1 0))
      (System.mk MessageQueue.empty
         (<[0 := System.call (MessageQueue.send green)]>
            (<[1 := System.call MessageQueue.receive]> ∅)) [])
    = Some s'
    ∧ System.pushed (System.log s') = [green]
    ∧ ∀ th v, System.pool s' !! 1 = Some th → System.msg th = Some v →
              v ∈ System.pushed (System.log s').
Proof.
  pose (s0 := System.mk (T:=TrafficLightPhase) MessageQueue.empty
                (<[0 := System.call (MessageQueue.send green)]>
                   (<[1 := System.call MessageQueue.receive]> ∅)) []).
  pose (acts := replicate 4 (System.Step 0 0) ++ replicate 5 (System.Step 1 0)).
  pose (s1 := default s0 (System.sched acts s0)).
  assert (Hrun : System.sched acts s0 = Some s1) by (vm_compute; reflexivity).
  assert (Hpushed : System.pushed (System.log s1) = [green])
    by (vm_compute; reflexivity).
  clearbody s1.
  assert (Hfresh : ∀ me th, System.pool s0 !! me = Some th →
            System.msg th = None ∧ System.received th = []).
  { intros me th. cbn [System.pool s0].
    destruct (decide (me = 0)) as [->|H0].
    - rewrite lookup_insert_eq. intros [= <-]. split; reflexivity.
    - rewrite lookup_insert_ne by (intros E; exact (H0 (eq_sym E))).
      destruct (decide (me = 1)) as [->|H1].
      + rewrite lookup_insert_eq. intros [= <-]. split; reflexivity.
      + rewrite lookup_insert_ne by (intros E; exact (H1 (eq_sym E))). rewrite lookup_empty.
        intros [=]. }
  exists s1. split; [exact Hrun|]. split; [exact Hpushed|].
  intros th v Hth Hv.
  destruct (proj2 (received_values_were_sent acts s0 s1 eq_refl Hfresh Hrun)
              1 th v Hth (or_introl Hv)) as [Hin|Hin]; [|exact Hin].
  cbn in Hin. destruct (not_elem_of_nil _ Hin).
Defined.

(** X5.  [waitForGreen] returns only after green has been sent.  On a queue
    whose container holds no green at the start, under every schedule, a
    thread that has returned from [waitForGreen] implies that some thread
    has executed the [push_back] of a [send(green)]. *)
Theorem waitForGreen_needs_green_sent (acts : list System.action)
    (s s' : System.t TrafficLightPhase) (me : nat)
    (th : System.thread TrafficLightPhase) :
  System.pool s !! me = Some TrafficLight.waitForGreen →
  System.log s = [] →
  (∀ t th0, System.pool s !! t = Some th0 →
     System.msg th0 = None ∧ System.received th0 = []) →
  green ∉ MessageQueue._messages (System.queue s) →
  System.sched acts s = Some s' →
  System.pool s' !! me = Some th →
  System.finished th →
  green ∈ System.pushed (System.log s').
Proof.
  intros Hme Hl Hfresh Hno Hs Hth Hfin.
  destruct (sched_waits_for_green acts s s' me Hme Hs) as (th0 & Hth0 & Hw).
  rewrite Hth in Hth0. injection Hth0 as <-.
  assert (Hg : green ∈ System.received th).
  { destruct Hw as [n [[Hlp _]|[_ ->]]].
    - destruct Hfin as [_ Hnone]. rewrite Hnone in Hlp. discriminate Hlp.
    - apply elem_of_app. right. by apply list_elem_of_singleton. }
  assert (Ht : System.traced (MessageQueue._messages (System.queue s)) s').
  { apply (sched_traced _ acts s s'); [|done]. split; [by left|].
    intros t th0 v Ht0 [Hv|Hv]; destruct (Hfresh t th0 Ht0) as [Hm Hr].
    - congruence.
    - rewrite Hr in Hv. by apply elem_of_nil in Hv. }
  destruct (proj2 Ht me th green Hth (or_intror Hg)) as [Hin|Hin]; done.
Qed.

Lemma waitForGreen_needs_green_sent_witness :
  ∃ s',
    System.sched (replicate 4 (System.Step 0 0) ++ replicate 7 (System.Step 1 0))
      (System.mk MessageQueue.empty
         (<[0 := System.call (MessageQueue.send green)]>
            (<[1 := TrafficLight.waitForGreen]> ∅)) [])
    = Some s'
    ∧ green ∈ System.pushed (System.log s').
Proof.
  pose (s0 := System.mk (T:=TrafficLightPhase) MessageQueue.empty
                (<[0 := System.call (MessageQueue.send green)]>
                   (<[1 := TrafficLight.waitForGreen]> ∅)) []).
  pose (acts := replicate 4 (System.Step 0 0) ++ replicate 7 (System.Step 1 0)).
  pose (s1 := default s0 (System.sched acts s0)).
  pose (th1 := System.mkThread (T:=TrafficLightPhase) [] (Some green) None
                 [green]).
  assert (Hrun : System.sched acts s0 = Some s1) by (vm_compute; reflexivity).
  assert (Hth : System.pool s1 !! 1 = Some th1) by (vm_compute; reflexivity).
  clearbody s1.
  assert (Hfresh : ∀ me th, System.pool s0 !! me = Some th →
            System.msg th = None ∧ System.received th = []).
  { intros me th. cbn [System.pool s0].
    destruct (decide (me = 0)) as [->|H0].
    - rewrite lookup_insert_eq. intros [= <-]. split; reflexivity.
    - rewrite lookup_insert_ne by (intros E; exact (H0 (eq_sym E))).
      destruct (decide (me = 1)) as [->|H1].
      + rewrite lookup_insert_eq. intros [= <-]. split; reflexivity.
      + rewrite lookup_insert_ne by (intros E; exact (H1 (eq_sym E))). rewrite lookup_empty.
        intros [=]. }
  exists s1. split; [exact Hrun|].
  apply (waitForGreen_needs_green_sent acts s0 s1 1 th1 eq_refl eq_refl Hfresh).
  - apply not_elem_of_nil.
  - exact Hrun.
  - exact Hth.
  - split; reflexivity.
Defined.

(** * A thread that runs alone *)

Section Solo.
Context {T : Type}.
Implicit Types (q : MessageQueue.t T) (i : MessageQueue.instr T)
  (me pick : nat) (pl : gmap nat (System.thread T)).

Import MessageQueue System.

Lemma step_done me pick q pl lg i rest m lp rcv q' m' :
  pl !! me = Some (mkThread (i :: rest) m lp rcv) →
  exec pick me i m q = Done q' m' →
  step (Step me pick) (System.mk q pl lg)
  = Some (System.mk q' (<[me := mkThread rest m' lp rcv]> pl)
            (lg ++ [mkEntry me i (_mutex q)])).
Proof.
  intros Hth He. unfold step. cbn [pool queue log]. rewrite Hth.
  cbn [mbind option_bind code msg loop received]. by rewrite He.
Qed.

Lemma step_park me pick q pl lg i rest m lp rcv q' :
  pl !! me = Some (mkThread (i :: rest) m lp rcv) →
  exec pick me i m q = Park q' →
  step (Step me pick) (System.mk q pl lg)
  = Some (System.mk q'
            (<[me := mkThread (cv_reacquire :: i :: rest) m lp rcv]> pl)
            (lg ++ [mkEntry me i (_mutex q)])).
Proof.
  intros Hth He. unfold step. cbn [pool queue log]. rewrite Hth.
  cbn [mbind option_bind code msg loop received]. by rewrite He.
Qed.

Lemma step_loop me pick q pl lg v body stop rcv :
  pl !! me = Some (mkThread [] (Some v) (Some (body, stop)) rcv) →
  step (Step me pick) (System.mk q pl lg)
  = Some (System.mk q
            (<[me := if stop v
                     then mkThread [] (Some v) None (rcv ++ [v])
                     else mkThread body None (Some (body, stop)) (rcv ++ [v])]>
               pl) lg).
Proof.
  intros Hth. unfold step. cbn [pool queue log]. by rewrite Hth.
Qed.

(** A call that returns when its thread runs alone returns after one step
    for each of its primitives. *)
Lemma sched_solo pick me c :
  ∀ m q pl lg lp rcv m' q',
    run pick me c m q = Returned m' q' →
    pl !! me = Some (mkThread c m lp rcv) →
    ∃ lg',
      sched (replicate (length c) (Step me pick)) (System.mk q pl lg)
      = Some (System.mk q' (<[me := mkThread [] m' lp rcv]> pl) lg').
Proof.
  induction c as [|i c IH]; intros m q pl lg lp rcv m' q' Hrun Hth.
  - injection Hrun as <- <-. exists lg. cbn. by rewrite insert_id.
  - rewrite run_cons in Hrun.
    destruct (exec pick me i m q) as [q1 m1| | |] eqn:He; try done.
    destruct (IH m1 q1 (<[me := mkThread c m1 lp rcv]> pl)
                (lg ++ [mkEntry me i (_mutex q)]) lp rcv m' q' Hrun)
      as [lg' Hs]; [by rewrite lookup_insert_eq|].
    exists lg'. cbn [length replicate sched].
    rewrite (step_done _ _ _ _ _ _ _ _ _ _ _ _ Hth He).
    cbn [mbind option_bind]. rewrite Hs. by rewrite insert_insert_eq.
Qed.
End Solo.

Section WaitAlone.
Import MessageQueue System.
Implicit Types (pl : gmap nat (System.thread TrafficLightPhase)).

Abbreviation in_loop rcv :=
  (mkThread TrafficLight.waitForGreen_round None
     (loop TrafficLight.waitForGreen) rcv).

(** One round of the loop of [waitForGreen] on a container that is not
    empty: six steps of the call and the test of the value. *)
Lemma waitForGreen_round_takes me pick pl lg rcv l x w :
  pl !! me = Some (in_loop rcv) →
  ∃ lg',
    sched (replicate 7 (Step me pick))
      (System.mk (MessageQueue.mk (l ++ [x]) None w) pl lg)
    = Some (System.mk (MessageQueue.mk l None w)
              (<[me := match x with
                       | green => mkThread [] (Some green) None (rcv ++ [green])
                       | red => in_loop (rcv ++ [red])
                       end]> pl) lg').
Proof.
  intros Hth.
  assert (Hrun : run pick me TrafficLight.waitForGreen_round None
                   (MessageQueue.mk (l ++ [x]) None w)
                 = Returned (Some x) (MessageQueue.mk l None w)).
  { unfold TrafficLight.waitForGreen_round. rewrite run_cons. cbn [exec].
    apply run_receive_takes. }
  destruct (sched_solo pick me _ _ _ pl lg _ rcv _ _ Hrun Hth) as [lg' Hs].
  exists lg'.
  change (replicate 7 (Step me pick))
    with (replicate (length TrafficLight.waitForGreen_round) (Step me pick)
          ++ [Step me pick]).
  rewrite sched_app, Hs. cbn [mbind option_bind sched].
  rewrite (step_loop me pick _ _ _ x TrafficLight.waitForGreen_round
             (λ currPhase, phase_eqb currPhase green) rcv)
    by (by rewrite lookup_insert_eq).
  cbn [mbind option_bind]. rewrite insert_insert_eq. by destruct x.
Qed.

(** A round on an empty container: the thread parks at its third step and
    cannot take another. *)
Lemma waitForGreen_round_parks me pick pick' pl lg rcv w :
  pl !! me = Some (in_loop rcv) →
  ∃ lg',
    sched (replicate 3 (Step me pick))
      (System.mk (MessageQueue.mk [] None w) pl lg)
    = Some (System.mk (MessageQueue.mk [] None (w ++ [me]))
              (<[me := mkThread MessageQueue.waiting None
                         (loop TrafficLight.waitForGreen) rcv]> pl) lg')
    ∧ step (Step me pick')
        (System.mk (MessageQueue.mk [] None (w ++ [me]))
           (<[me := mkThread MessageQueue.waiting None
                      (loop TrafficLight.waitForGreen) rcv]> pl) lg')
      = None.
Proof.
  intros Hth. eexists. split.
  - cbn [replicate sched].
    erewrite step_done; [|exact Hth|reflexivity]. cbn [mbind option_bind].
    erewrite step_done; [|by rewrite lookup_insert_eq|reflexivity].
    cbn [mbind option_bind].
    erewrite step_park; [|by rewrite lookup_insert_eq|].
    2:{ cbn [exec set_mutex _mutex _messages _condition].
        by rewrite decide_True. }
    cbn [mbind option_bind]. rewrite !insert_insert_eq. reflexivity.
  - unfold step. cbn [pool queue log]. rewrite lookup_insert_eq.
    cbn [mbind option_bind code msg MessageQueue.waiting exec _condition].
    rewrite decide_True; [done|].
    apply elem_of_app. right. by apply list_elem_of_singleton.
Qed.

(** The reds at the back of the container are taken one per round. *)
Lemma waitForGreen_drains_reds me pick l w n :
  ∀ rcv pl lg,
    pl !! me = Some (in_loop rcv) →
    ∃ lg',
      sched (replicate (7 * n) (Step me pick))
        (System.mk (MessageQueue.mk (l ++ replicate n red) None w) pl lg)
      = Some (System.mk (MessageQueue.mk l None w)
                (<[me := in_loop (rcv ++ replicate n red)]> pl) lg').
Proof.
  induction n as [|n IH]; intros rcv pl lg Hth.
  - exists lg. cbn [replicate Nat.mul sched]. rewrite !app_nil_r.
    by rewrite insert_id.
  - replace (l ++ replicate (S n) red) with ((l ++ replicate n red) ++ [red])
      by (by rewrite <- app_assoc, replicate_snoc).
    destruct (waitForGreen_round_takes me pick pl lg rcv
                (l ++ replicate n red) red w Hth) as [lg1 H1].
    destruct (IH (rcv ++ [red]) (<[me := in_loop (rcv ++ [red])]> pl) lg1)
      as [lg' H2]; [by rewrite lookup_insert_eq|].
    exists lg'.
    replace (7 * S n) with (7 + 7 * n) by lia.
    rewrite replicate_add, sched_app, H1. cbn [mbind option_bind].
    rewrite H2, insert_insert_eq. by rewrite <- app_assoc.
Qed.
End WaitAlone.

(** X6.  [waitForGreen] takes the container from the back.  When the
    container holds a green with [n] reds behind it and the thread runs
    without interference, the thread takes the [n] reds, one per round of
    its loop, then the green, and returns after [7 * (n + 1)] steps; what
    was stored before that green stays, the mutex is free again, nobody has
    been parked or woken, and the other threads are as they were. *)
Theorem waitForGreen_alone_returns_on_green (s : System.t TrafficLightPhase)
    (me pick : nat) (l : list TrafficLightPhase) (n : nat) :
  System.pool s !! me = Some TrafficLight.waitForGreen →
  MessageQueue._mutex (System.queue s) = None →
  MessageQueue._messages (System.queue s) = l ++ green :: replicate n red →
  ∃ s' th,
    System.sched (replicate (7 * S n) (System.Step me pick)) s = Some s'
    ∧ System.pool s' !! me = Some th
    ∧ System.finished th
    ∧ System.received th = replicate n red ++ [green]
    ∧ System.queue s'
      = MessageQueue.mk l None (MessageQueue._condition (System.queue s))
    ∧ ∀ t, t ≠ me → System.pool s' !! t = System.pool s !! t.
Proof.
  destruct s as [[msgs m w] pl lg].
  cbn [System.pool System.queue MessageQueue._mutex MessageQueue._messages
       MessageQueue._condition].
  intros Hth -> ->.
  change (l ++ green :: replicate n red)
    with (l ++ [green] ++ replicate n red).
  rewrite app_assoc.
  destruct (waitForGreen_drains_reds me pick (l ++ [green]) w n [] pl lg Hth)
    as [lg1 H1].
  destruct (waitForGreen_round_takes me pick
              (<[me := System.mkThread TrafficLight.waitForGreen_round None
                         (System.loop TrafficLight.waitForGreen)
                         ([] ++ replicate n red)]> pl)
              lg1 ([] ++ replicate n red) l green w)
    as [lg2 H2]; [by rewrite lookup_insert_eq|].
  eexists _, _.
  replace (7 * S n) with (7 * n + 7) by lia.
  rewrite replicate_add, sched_app, H1. cbn [mbind option_bind].
  split; [exact H2|]. cbn [System.pool System.queue].
  split; [by rewrite insert_insert_eq, lookup_insert_eq|].
  split; [done|]. split; [done|]. split; [done|].
  intros t Hne. by rewrite !lookup_insert_ne.
Qed.

Lemma waitForGreen_alone_returns_on_green_witness :
  ∃ s' th,
    System.sched (replicate 21 (System.Step 1 0))
      (System.mk (MessageQueue.mk [red; green; red; red] None [])
         (<[1 := TrafficLight.waitForGreen]> ∅) [])
    = Some s'
    ∧ System.pool s' !! 1 = Some th
    ∧ System.received th = [red; red; green]
    ∧ System.queue s' = MessageQueue.mk [red] None [].
Proof.
  assert (H0 : System.pool
                 (System.mk (MessageQueue.mk [red; green; red; red] None [])
                    (<[1 := TrafficLight.waitForGreen]> ∅) []) !! 1
               = Some TrafficLight.waitForGreen) by reflexivity.
  destruct (waitForGreen_alone_returns_on_green
              (System.mk (MessageQueue.mk [red; green; red; red] None [])
                 (<[1 := TrafficLight.waitForGreen]> ∅) [])
              1 0 [red] 2 H0 eq_refl eq_refl)
    as (s' & th & Hrun & Hth & _ & Hrcv & Hq & _).
  exists s', th. split; [exact Hrun|]. split; [exact Hth|].
  split; [exact Hrcv|exact Hq].
Defined.

(** X7.  With no green in reach [waitForGreen] does not return.  When the
    container holds [n] reds and nothing else and the thread runs without
    interference, it takes the reds in [n] rounds and parks in the [wait] of
    the next [receive], three steps later: the container is empty, the mutex
    is free, the thread is on the condition variable, and the thread cannot
    take a step until it is woken. *)
Theorem waitForGreen_alone_parks_without_green
    (s : System.t TrafficLightPhase) (me pick pick' : nat) (n : nat) :
  System.pool s !! me = Some TrafficLight.waitForGreen →
  MessageQueue._mutex (System.queue s) = None →
  MessageQueue._messages (System.queue s) = replicate n red →
  ∃ s' th,
    System.sched (replicate (7 * n + 3) (System.Step me pick)) s = Some s'
    ∧ System.pool s' !! me = Some th
    ∧ ¬ System.finished th
    ∧ System.code th = MessageQueue.waiting
    ∧ System.received th = replicate n red
    ∧ System.queue s'
      = MessageQueue.mk [] None
          (MessageQueue._condition (System.queue s) ++ [me])
    ∧ System.step (System.Step me pick') s' = None.
Proof.
  destruct s as [[msgs m w] pl lg].
  cbn [System.pool System.queue MessageQueue._mutex MessageQueue._messages
       MessageQueue._condition].
  intros Hth -> ->.
  destruct (waitForGreen_drains_reds me pick [] w n [] pl lg Hth)
    as [lg1 H1].
  destruct (waitForGreen_round_parks me pick pick'
              (<[me := System.mkThread TrafficLight.waitForGreen_round None
                         (System.loop TrafficLight.waitForGreen)
                         ([] ++ replicate n red)]> pl)
              lg1 ([] ++ replicate n red) w)
    as (lg2 & H2 & Hblocked); [by rewrite lookup_insert_eq|].
  eexists _, _.
  rewrite replicate_add, sched_app.
  change (replicate n red) with ([] ++ replicate n red) at 1.
  rewrite H1. cbn [mbind option_bind].
  split; [exact H2|]. cbn [System.pool System.queue].
  split; [by rewrite lookup_insert_eq|].
  split; [by intros [[=] _]|]. split; [done|]. split; [done|].
  split; [done|]. exact Hblocked.
Qed.

Lemma waitForGreen_alone_parks_without_green_witness :
  ∃ s' th,
    System.sched (replicate 17 (System.Step 1 0))
      (System.mk (MessageQueue.mk [red; red] None [])
         (<[1 := TrafficLight.waitForGreen]> ∅) [])
    = Some s'
    ∧ System.pool s' !! 1 = Some th
    ∧ System.received th = [red; red]
    ∧ System.step (System.Step 1 0) s' = None.
Proof.
  assert (H0 : System.pool
                 (System.mk (MessageQueue.mk [red; red] None [])
                    (<[1 := TrafficLight.waitForGreen]> ∅) []) !! 1
               = Some TrafficLight.waitForGreen) by reflexivity.
  destruct (waitForGreen_alone_parks_without_green
              (System.mk (MessageQueue.mk [red; red] None [])
                 (<[1 := TrafficLight.waitForGreen]> ∅) [])
              1 0 0 2 H0 eq_refl eq_refl)
    as (s' & th & Hrun & Hth & _ & _ & Hrcv & _ & Hblocked).
  exists s', th. split; [exact Hrun|]. split; [exact Hth|].
  split; [exact Hrcv|exact Hblocked].
Defined.

(** * Further properties of the background cycle *)

Section CycleMore.
Context {engine : Type}.
Variable uniform_int_distribution : Z → Z → engine → Z * engine.
Variable ticks_per_second : Z.
Variables self async : nat.

Import TrafficLight.

Abbreviation cycle := (cycle engine).
Abbreviation iteration :=
  (iteration engine uniform_int_distribution ticks_per_second self async).
Abbreviation rounds :=
  (rounds engine uniform_int_distribution ticks_per_second self async).
Abbreviation secondsList := (secondsList engine uniform_int_distribution).
Implicit Types (w : cycle) (i : tick).

(** As [rounds_invariant], for a property the rounds keep when the ticks
    are of some kind. *)
Lemma rounds_invariant_on (Good : tick → Prop) (P : cycle → Prop) :
  (∀ i w w',
      Good i → MessageQueue._mutex (_msgQueue (this w)) = None →
      P w → iteration i w = Ok (tt, w') → P w') →
  ∀ ticks w,
    Forall Good ticks →
    MessageQueue._mutex (_msgQueue (this w)) = None → P w →
    ∃ w', rounds ticks w = Ok (tt, w') ∧
          MessageQueue._mutex (_msgQueue (this w')) = None ∧ P w'.
Proof.
  intros Hkeep ticks.
  induction ticks as [|i ticks IH]; intros w Hgood Hm HP; [by exists w|].
  apply Forall_cons in Hgood as [Hi Hgood].
  destruct (iteration_cases uniform_int_distribution ticks_per_second
              self async i w Hm) as (w1 & Hw1 & Hm1 & _).
  destruct (IH w1 Hgood Hm1 (Hkeep i w w1 Hi Hm HP Hw1))
    as (w' & Hr & Hm' & HP').
  exists w'. split; [|done].
  cbn [TrafficLight.rounds]. unfold mbind, cycle_bind, bind.
  by rewrite Hw1.
Qed.

(** The two shapes of the state after a round. *)
Lemma iteration_either i w w' :
  MessageQueue._mutex (_msgQueue (this w)) = None →
  iteration i w = Ok (tt, w') →
  let q := _msgQueue (this w) in
  let r := others i (MessageQueue._messages q, MessageQueue._condition q) in
  let p := if phase_eqb (_currentPhase (this w)) red then green else red in
  (((now i - lastUpdate w) `quot` ticks_per_second < cycleDuration w)%Z
   ∧ w' = mkCycle
            (mk (_currentPhase (this w))
               (MessageQueue.mk r.1 (MessageQueue._mutex q) r.2)
               (_id (this w)))
            (engine_state w) (cycleDuration w) (lastUpdate w)
            (cout w) (trace w ++ [EvSleep]))
  ∨ ((cycleDuration w ≤ (now i - lastUpdate w) `quot` ticks_per_second)%Z
     ∧ w' = mkCycle
              (mk p (MessageQueue.mk [p] None
                       (delete (pick i `mod` length r.2) r.2))
                 (_id (this w)))
              (secondsList (engine_state w)).2
              (secondsList (engine_state w)).1
              (now' i)
              (cout w ++ [(_id (this w), p)])
              (trace w ++ [EvSleep; EvToggle p; EvPrint (_id (this w)) p;
                           EvClear; EvAsyncSend p; EvWait; EvReset (now' i);
                           EvDraw (secondsList (engine_state w)).1])).
Proof.
  intros Hm Hi. cbv zeta.
  destruct (Z_le_gt_dec (cycleDuration w)
              ((now i - lastUpdate w) `quot` ticks_per_second)) as [Hle|Hgt].
  - right. split; [done|].
    rewrite (iteration_toggles uniform_int_distribution ticks_per_second
               self async i w Hm Hle) in Hi.
    by injection Hi as <-.
  - left. split; [lia|].
    rewrite (iteration_idles uniform_int_distribution ticks_per_second
               self async i w) in Hi by lia.
    by injection Hi as <-.
Qed.

Lemma iteration_printed id i w w' :
  MessageQueue._mutex (_msgQueue (this w)) = None →
  printed id w → iteration i w = Ok (tt, w') → printed id w'.
Proof.
  intros Hm [Hid Hout] Hi.
  destruct (iteration_either i w w' Hm Hi) as [[_ ->] | [_ ->]];
    unfold printed; cbn [this cout trace _id].
  - split; [done|]. unfold toggles. rewrite omap_app. cbn.
    by rewrite app_nil_r.
  - split; [done|]. unfold toggles. rewrite omap_app. cbn.
    rewrite fmap_app. cbn. by rewrite Hout, Hid.
Qed.

Lemma sublist_single_slot (l l' : list TrafficLightPhase) p :
  l' `sublist_of` l → l = [] ∨ l = [p] → l' = [] ∨ l' = [p].
Proof.
  intros Hsub [-> | ->].
  - left. by apply sublist_nil_r.
  - apply sublist_cons_r in Hsub as [Hsub|(k & -> & Hsub)].
    + left. by apply sublist_nil_r.
    + right. apply sublist_nil_r in Hsub as ->. done.
Qed.

Lemma iteration_single_slot i w w' :
  consuming i →
  MessageQueue._mutex (_msgQueue (this w)) = None →
  single_slot w → iteration i w = Ok (tt, w') → single_slot w'.
Proof.
  intros Hcons Hm Hslot Hi.
  destruct (iteration_either i w w' Hm Hi) as [[_ ->] | [_ ->]];
    unfold single_slot;
    cbn [this _msgQueue _currentPhase MessageQueue._messages].
  - eapply sublist_single_slot; [apply Hcons|exact Hslot].
  - by right.
Qed.

(** A state that the cycle reaches from a newly constructed controller. *)
Lemma reached_invariant (P : cycle → Prop) id seed now0 ticks w :
  P (enter engine uniform_int_distribution seed now0 (TrafficLight id)) →
  (∀ i w w',
      MessageQueue._mutex (_msgQueue (this w)) = None →
      P w → iteration i w = Ok (tt, w') → P w') →
  cycleThroughPhases engine uniform_int_distribution ticks_per_second
    self async seed now0 ticks (TrafficLight id) = Ok w →
  MessageQueue._mutex (_msgQueue (this w)) = None ∧ P w.
Proof.
  intros H0 Hkeep. unfold cycleThroughPhases.
  destruct (rounds_invariant uniform_int_distribution ticks_per_second
              self async P Hkeep ticks
              (enter engine uniform_int_distribution seed now0
                 (TrafficLight id)) eq_refl H0) as (w' & -> & Hm & HP).
  by intros [= <-].
Qed.
End CycleMore.

(** X8.  Every toggle is printed, and nothing else is.  Whatever the clock
    readings, the durations and the other threads do, the lines that the
    cycle started on a newly constructed controller has written to
    [std::cout] are, in order, one for each toggle, each with the [_id] of
    the controller and the phase toggled to: green first, then red, and so
    on in turn. *)
Theorem every_toggle_is_printed {engine : Type}
    (uniform_int_distribution : Z → Z → engine → Z * engine)
    (ticks_per_second : Z) (self async id : nat) (seed : engine) (now0 : Z)
    (ticks : list TrafficLight.tick) :
  ∃ w,
    TrafficLight.cycleThroughPhases engine uniform_int_distribution
      ticks_per_second self async seed now0 ticks
      (TrafficLight.TrafficLight id)
    = TrafficLight.Ok w
    ∧ TrafficLight.cout w
      = (λ p, (id, p)) <$> TrafficLight.toggles (TrafficLight.trace w)
    ∧ length (TrafficLight.cout w)
      = length (TrafficLight.toggles (TrafficLight.trace w))
    ∧ ∀ k line, TrafficLight.cout w !! k = Some line →
                line = (id, if Nat.even k then green else red).
Proof.
  destruct (rounds_invariant uniform_int_distribution ticks_per_second
              self async
              (λ w, TrafficLight.alternates w ∧ TrafficLight.printed id w)
              (λ i w w' Hm HP Hi,
                 conj (iteration_alternates uniform_int_distribution
                         ticks_per_second self async i w w' Hm (proj1 HP) Hi)
                      (iteration_printed uniform_int_distribution
                         ticks_per_second self async id i w w' Hm
                         (proj2 HP) Hi))
              ticks
              (TrafficLight.enter engine uniform_int_distribution seed now0
                 (TrafficLight.TrafficLight id)))
    as (w & Hw & _ & [_ Halt] & [_ Hout]); [done| |].
  { split; [by split; [|intros [|[|k]] p [=]]|done]. }
  exists w. unfold TrafficLight.cycleThroughPhases. rewrite Hw.
  split; [done|]. split; [exact Hout|]. rewrite Hout.
  split; [by rewrite length_fmap|].
  intros k line Hk. rewrite list_lookup_fmap in Hk.
  destruct (TrafficLight.toggles (TrafficLight.trace w) !! k) as [p|] eqn:Hp;
    [|done].
  injection Hk as <-. specialize (Halt (S k) p Hp).
  rewrite Nat.even_succ, <- Nat.negb_even in Halt. rewrite Halt.
  by destruct (Nat.even k).
Qed.

(** X9.  What the container holds between two rounds of the cycle, and
    what it holds inside a round.  When the other threads only take
    elements out of the container, then at the end of every round of the
    cycle started on a newly constructed controller the container holds
    nothing or the current phase alone, so that a call of [receive] made
    between two rounds, if it returns, returns the current phase and
    empties the container.  Inside a round that toggles this is not so:
    after the toggle and the output (lines 105 and 107) and before the
    [clear()] of line 109 the queue is as it was, so a container that held
    the phase published last now holds the phase just left, and a call of
    [receive] at that moment returns that superseded phase. *)
Theorem queue_holds_current_phase_between_rounds {engine : Type}
    (uniform_int_distribution : Z → Z → engine → Z * engine)
    (ticks_per_second : Z) (self async id : nat) (seed : engine) (now0 : Z)
    (ticks : list TrafficLight.tick) :
  Forall TrafficLight.consuming ticks →
  (∃ w,
     TrafficLight.cycleThroughPhases engine uniform_int_distribution
       ticks_per_second self async seed now0 ticks
       (TrafficLight.TrafficLight id)
     = TrafficLight.Ok w
     ∧ (MessageQueue._messages (TrafficLight._msgQueue (TrafficLight.this w))
        = []
        ∨ MessageQueue._messages
            (TrafficLight._msgQueue (TrafficLight.this w))
          = [TrafficLight._currentPhase (TrafficLight.this w)])
     ∧ ∀ pick me x q',
         MessageQueue.run pick me MessageQueue.receive None
           (TrafficLight._msgQueue (TrafficLight.this w))
         = MessageQueue.Returned (Some x) q' →
         x = TrafficLight._currentPhase (TrafficLight.this w)
         ∧ MessageQueue._messages q' = [])
  ∧ ∀ (w0 : TrafficLight.cycle engine) pick me,
      MessageQueue._mutex (TrafficLight._msgQueue (TrafficLight.this w0))
      = None →
      MessageQueue._messages (TrafficLight._msgQueue (TrafficLight.this w0))
      = [TrafficLight._currentPhase (TrafficLight.this w0)] →
      ∃ w1,
        TrafficLight.bind engine (λ _ : (), TrafficLight.print engine)
          (TrafficLight.set_phase engine
             (if phase_eqb (TrafficLight._currentPhase (TrafficLight.this w0))
                   red
              then green else red))
          w0
        = TrafficLight.Ok (tt, w1)
        ∧ TrafficLight._currentPhase (TrafficLight.this w1)
          ≠ TrafficLight._currentPhase (TrafficLight.this w0)
        ∧ TrafficLight._msgQueue (TrafficLight.this w1)
          = TrafficLight._msgQueue (TrafficLight.this w0)
        ∧ MessageQueue.run pick me MessageQueue.receive None
            (TrafficLight._msgQueue (TrafficLight.this w1))
          = MessageQueue.Returned
              (Some (TrafficLight._currentPhase (TrafficLight.this w0)))
              (MessageQueue.mk [] None
                 (MessageQueue._condition
                    (TrafficLight._msgQueue (TrafficLight.this w0)))).
Proof.
  intros Hgood. split.
  - destruct (rounds_invariant_on uniform_int_distribution ticks_per_second
                self async TrafficLight.consuming TrafficLight.single_slot
                (iteration_single_slot uniform_int_distribution
                   ticks_per_second self async)
                ticks
                (TrafficLight.enter engine uniform_int_distribution seed now0
                   (TrafficLight.TrafficLight id)) Hgood)
      as (w & Hw & Hm & Hslot); [done|by left|].
    exists w. unfold TrafficLight.cycleThroughPhases. rewrite Hw.
    split; [done|]. split; [exact Hslot|].
    intros pick me x q'. unfold TrafficLight.single_slot in Hslot.
    destruct (TrafficLight._msgQueue (TrafficLight.this w)) as [msgs m c].
    cbn [MessageQueue._messages MessageQueue._mutex] in Hslot, Hm. subst m.
    destruct Hslot as [-> | ->].
    + by rewrite run_receive_parks.
    + change [?p] with ([] ++ [p]).
      rewrite (run_receive_takes pick me [] _ c). by intros [= <- <-].
  - intros [[p0 [msgs m c] id0] e d t0 out tr] pick me.
    cbn [TrafficLight.this TrafficLight._msgQueue TrafficLight._currentPhase
         MessageQueue._mutex MessageQueue._messages MessageQueue._condition].
    intros -> ->. eexists. split; [reflexivity|].
    cbn [TrafficLight.this TrafficLight._msgQueue TrafficLight._currentPhase].
    split; [by destruct p0|]. split; [reflexivity|].
    apply (run_receive_takes pick me [] p0 c).
Qed.

Lemma queue_holds_current_phase_between_rounds_witness :
  Forall TrafficLight.consuming
    [TrafficLight.mkTick 9000000000 9000000500 0 (λ r, r);
     TrafficLight.mkTick 9000010000 9000010500 0 (λ r, (tail r.1, r.2))]
  ∧ ∃ w,
      TrafficLight.cycleThroughPhases Z
        (λ a b e, (a + e `mod` (b - a + 1), e + 1))%Z 1000000000 0 1 10%Z 0
        [TrafficLight.mkTick 9000000000 9000000500 0 (λ r, r);
         TrafficLight.mkTick 9000010000 9000010500 0 (λ r, (tail r.1, r.2))]
        (TrafficLight.TrafficLight 3)
      = TrafficLight.Ok w
      ∧ (MessageQueue._messages (TrafficLight._msgQueue (TrafficLight.this w))
         = []
         ∨ MessageQueue._messages
             (TrafficLight._msgQueue (TrafficLight.this w))
           = [TrafficLight._currentPhase (TrafficLight.this w)]).
Proof.
  assert (H : Forall TrafficLight.consuming
                [TrafficLight.mkTick 9000000000 9000000500 0 (λ r, r);
                 TrafficLight.mkTick 9000010000 9000010500 0
                   (λ r, (tail r.1, r.2))]).
  { apply Forall_cons; split; [intros l c; reflexivity|].
    apply Forall_cons; split; [|apply Forall_nil_2].
    intros l c. cbn. destruct l; [reflexivity|]. by apply sublist_cons. }
  split; [exact H|].
  destruct (proj1 (queue_holds_current_phase_between_rounds
                     (λ a b e, (a + e `mod` (b - a + 1), e + 1))%Z
                     1000000000 0 1 3 10%Z 0 _ H))
    as (w & Hrun & Hslot & _).
  exists w. split; [exact Hrun|exact Hslot].
Defined.

(** X10.  The phase is not toggled before five whole seconds have elapsed
    on the clock since the last toggle (or since the cycle was entered), and
    is toggled in the first round that finds eight or more elapsed.  In a
    state that the cycle has reached from a newly constructed controller,
    with a distribution that yields values within its bounds: a round that
    reads fewer than 5 seconds leaves the phase, the time of the last
    update, the duration and the output as they are; a round that reads 8 or
    more toggles the phase, publishes it and takes the new reading as last
    update. *)
Theorem toggle_not_before_5_and_by_8_seconds {engine : Type}
    (uniform_int_distribution : Z → Z → engine → Z * engine)
    (ticks_per_second : Z) (self async id : nat) (seed : engine) (now0 : Z)
    (ticks : list TrafficLight.tick) (w : TrafficLight.cycle engine)
    (i : TrafficLight.tick) :
  (∀ a b e, (a ≤ b)%Z → (a ≤ (uniform_int_distribution a b e).1 ≤ b)%Z) →
  TrafficLight.cycleThroughPhases engine uniform_int_distribution
    ticks_per_second self async seed now0 ticks
    (TrafficLight.TrafficLight id)
  = TrafficLight.Ok w →
  ∃ w',
    TrafficLight.iteration engine uniform_int_distribution ticks_per_second
      self async i w
    = TrafficLight.Ok (tt, w')
    ∧ (((TrafficLight.now i - TrafficLight.lastUpdate w)
          `quot` ticks_per_second < 5)%Z →
       TrafficLight._currentPhase (TrafficLight.this w')
       = TrafficLight._currentPhase (TrafficLight.this w)
       ∧ TrafficLight.lastUpdate w' = TrafficLight.lastUpdate w
       ∧ TrafficLight.cycleDuration w' = TrafficLight.cycleDuration w
       ∧ TrafficLight.cout w' = TrafficLight.cout w)
    ∧ ((8 ≤ (TrafficLight.now i - TrafficLight.lastUpdate w)
               `quot` ticks_per_second)%Z →
       TrafficLight._currentPhase (TrafficLight.this w')
       ≠ TrafficLight._currentPhase (TrafficLight.this w)
       ∧ TrafficLight.lastUpdate w' = TrafficLight.now' i
       ∧ MessageQueue._messages
           (TrafficLight._msgQueue (TrafficLight.this w'))
         = [TrafficLight._currentPhase (TrafficLight.this w')]).
Proof.
  intros Hrange Hrun.
  destruct (reached_invariant uniform_int_distribution ticks_per_second
              self async TrafficLight.durations_ok id seed now0 ticks w)
    as [Hm (Hd & _)]; [| |exact Hrun|].
  { assert (Hin : (5 ≤ (uniform_int_distribution 5 8 seed).1 ≤ 8)%Z)
      by (apply Hrange; lia).
    repeat split; cbn; try apply Hin. by apply Forall_singleton. }
  { intros j u u'. by apply iteration_durations. }
  destruct (iteration_cases uniform_int_distribution ticks_per_second
              self async i w Hm) as (w' & Hi & _).
  exists w'. split; [exact Hi|].
  destruct (iteration_either uniform_int_distribution ticks_per_second
              self async i w w' Hm Hi) as [[Hlt ->] | [Hle ->]];
    cbn [TrafficLight.this TrafficLight.lastUpdate TrafficLight.cycleDuration
         TrafficLight.cout TrafficLight._currentPhase TrafficLight._msgQueue
         MessageQueue._messages].
  - split; [done|]. intros H8. lia.
  - split; [intros H5; lia|]. intros _.
    split; [|done].
    by destruct (TrafficLight._currentPhase (TrafficLight.this w)).
Qed.

Lemma toggle_not_before_5_and_by_8_seconds_witness :
  (∀ a b e : Z, (a ≤ b)%Z → (a ≤ (a + e `mod` (b - a + 1), e + 1).1 ≤ b)%Z)
  ∧ ∃ w w',
      TrafficLight.cycleThroughPhases Z
        (λ a b e, (a + e `mod` (b - a + 1), e + 1))%Z 1000000000 0 1 10%Z 0
        [TrafficLight.mkTick 9000000000 9000000500 0 (λ r, r)]
        (TrafficLight.TrafficLight 3)
      = TrafficLight.Ok w
      ∧ TrafficLight.iteration Z
          (λ a b e, (a + e `mod` (b - a + 1), e + 1))%Z 1000000000 0 1
          (TrafficLight.mkTick 12000000000 12000000500 0 (λ r, r)) w
        = TrafficLight.Ok (tt, w').
Proof.
  assert (H : ∀ a b e : Z,
             (a ≤ b)%Z → (a ≤ (a + e `mod` (b - a + 1), e + 1).1 ≤ b)%Z).
  { intros a b e Hab. cbn [fst].
    pose proof (Z.mod_pos_bound e (b - a + 1)). lia. }
  split; [exact H|].
  destruct (TrafficLight.cycleThroughPhases Z
              (λ a b e, (a + e `mod` (b - a + 1), e + 1))%Z 1000000000 0 1
              10%Z 0
              [TrafficLight.mkTick 9000000000 9000000500 0 (λ r, r)]
              (TrafficLight.TrafficLight 3)) as [w| |] eqn:Hrun;
    [|vm_compute in Hrun; discriminate Hrun
     |vm_compute in Hrun; discriminate Hrun].
  destruct (toggle_not_before_5_and_by_8_seconds
              (λ a b e, (a + e `mod` (b - a + 1), e + 1))%Z 1000000000 0 1 3
              10%Z 0
              [TrafficLight.mkTick 9000000000 9000000500 0 (λ r, r)] w
              (TrafficLight.mkTick 12000000000 12000000500 0 (λ r, r))
              H Hrun)
    as (w' & Hi & _).
  exists w, w'. split; [reflexivity|exact Hi].
Defined.

(** X11.  [simulate] has no guard against being called again.  A call
    leaves the controller as it is and adds one thread that runs
    [cycleThroughPhases] on it at the end of [threads]; [n] calls add [n]
    such threads, all on the same controller. *)
Theorem simulate_adds_a_thread_each_time (this : TrafficLight.t)
    (threads : list TrafficLight.task) (n : nat) :
  Nat.iter n (λ st, TrafficLight.simulate st.1 st.2) (this, threads)
  = (this,
     threads
     ++ replicate n (TrafficLight.CycleThroughPhases (TrafficLight._id this))).
Proof.
  induction n as [|n IH]; cbn [Nat.iter replicate nat_rect].
  - by rewrite app_nil_r.
  - unfold Nat.iter in IH. rewrite IH. unfold TrafficLight.simulate.
    cbn [fst snd]. rewrite <- app_assoc. f_equal. f_equal.
    change (?x :: replicate n ?x) with (replicate (S n) x).
    by rewrite replicate_snoc.
Qed.
